(** * andi: the mutation matrix and its distance estimators (src/model.c)

    A shallow embedding of [model.c].  The integer part of the code works on
    [size_t] counters, written here as [Z] with the wrap-around modulo 2^64
    spelled out; the estimators work on C [double]s, written here as Rocq's
    primitive binary64 floats, one rounding per C operation. *)

From Stdlib Require Import String Ascii.
From Stdlib Require Import ZArith List Lia Bool.
From Stdlib Require Import Floats Uint63.
From Stdlib Require Import Reals Lra.
Import ListNotations.

Open Scope Z_scope.

Set Warnings "-inexact-float".

(** ** Machine integers *)

(** [size_t] is the 64-bit unsigned type of the LP64 targets andi builds on. *)
Definition SIZE_MAX : Z := 2 ^ 64 - 1.

Definition size_t_wrap (z : Z) : Z := z mod 2 ^ 64.

Definition in_size_t (z : Z) : Prop := 0 <= z <= SIZE_MAX.

(** [unsigned int], the type of the drawn counts of the multinomial sampler. *)
Definition UINT_MAX : Z := 2 ^ 32 - 1.

Definition uint_wrap (z : Z) : Z := z mod 2 ^ 32.

(** ** The mutation types of model.h *)

(** Modelled from the spec: the enumeration of the ten mutation types lives in
    model.h, which is not among the sources.  The order below is the one the
    code itself fixes: [model_count] adds the code difference to the bases
    0, 4, 7, 9 packed in [map4], with A, C, G, T coded 0..3 by [nucl2bit]. *)
Definition AtoA : nat := 0.
Definition AtoC : nat := 1.
Definition AtoG : nat := 2.
Definition AtoT : nat := 3.
Definition CtoC : nat := 4.
Definition CtoG : nat := 5.
Definition CtoT : nat := 6.
Definition GtoG : nat := 7.
Definition GtoT : nat := 8.
Definition TtoT : nat := 9.
Definition MUTCOUNTS : nat := 10.
Definition GtoC : nat := CtoG.

(** ** The mutation matrix *)

(** [struct model]: the array [counts] of [MUTCOUNTS] counters and the length
    of the reference sequence. *)
Record model : Type := Build_model {
  counts : list Z;
  seq_len : Z
}.

(** What the C type guarantees of a [model] value: ten counters, every field
    a [size_t]. *)
Definition wf_model (MM : model) : Prop :=
  length (counts MM) = MUTCOUNTS /\
  Forall in_size_t (counts MM) /\
  in_size_t (seq_len MM).

(** [a[i]] for an array held as a list. *)
Definition get (a : list Z) (i : nat) : Z := nth i a 0.

(** [a[i] = v]; an index past the end is not a write the C code can make, the
    callers below exclude it. *)
Fixpoint set (a : list Z) (i : nat) (v : Z) : list Z :=
  match a, i with
  | [], _ => []
  | _ :: t, O => v :: t
  | h :: t, S j => h :: set t j v
  end.

Definition empty_counts : list Z := repeat 0 MUTCOUNTS.

(** The matrix a caller starts from: all counters zero. *)
Definition empty_model (len : Z) : model :=
  {| counts := empty_counts; seq_len := len |}.

(** The sum of the counters without wrap-around, the number of classified
    positions the matrix stands for. *)
Definition sumZ (l : list Z) : Z := fold_right Z.add 0 l.

(** The data model's invariant [sum(counts) <= referenceLength]; as the
    reference length is a [size_t], no sum of counters overflows under it. *)
Definition covered (MM : model) : Prop := sumZ (counts MM) <= seq_len MM.

(** [model_sum_types]: add the counters named by [summands] up to the
    [MUTCOUNTS] sentinel.  [total] is the loop's accumulator. *)
Fixpoint model_sum_types (MM : model) (summands : list nat) (total : Z) : Z :=
  match summands with
  | [] => total
  | i :: rest =>
      if Nat.eqb i MUTCOUNTS then total
      else model_sum_types MM rest (size_t_wrap (total + get (counts MM) i))
  end.

(** The [model_sum] macro appends the sentinel to its arguments. *)
Definition model_sum (MM : model) (types : list nat) : Z :=
  model_sum_types MM (types ++ [MUTCOUNTS]) 0.

(** [model_average]: copy [*MM], add the counters and the length of [*NN]. *)
Definition model_average (MM NN : model) : model :=
  let ret :=
    fold_left
      (fun ret i => set ret i (size_t_wrap (get ret i + get (counts NN) i)))
      (seq 0 MUTCOUNTS) (counts MM) in
  {| counts := ret; seq_len := size_t_wrap (seq_len MM + seq_len NN) |}.

(** [model_total]: the sum of all ten counters, in [size_t] arithmetic. *)
Definition model_total (MM : model) : Z :=
  fold_left
    (fun total i => size_t_wrap (total + get (counts MM) i))
    (seq 0 MUTCOUNTS) 0.

(** ** Binary64 arithmetic *)

(** [(double)n] for a [size_t]: the nearest binary64, ties to even.  The
    primitive conversion takes 63-bit integers; the upper half of the range
    is halved with a sticky low bit and doubled, which rounds the same way
    (it is also the instruction sequence compilers emit for this cast). *)
Definition double_of_size_t (n : Z) : float :=
  if n <? 2 ^ 63 then of_uint63 (Uint63.of_Z n)
  else (of_uint63 (Uint63.of_Z (Z.lor (Z.shiftr n 1) (Z.land n 1))) * 2)%float.

(** [model_coverage]: classified positions over the reference length. *)
Definition model_coverage (MM : model) : float :=
  let covered := model_total MM in
  let actual := seq_len MM in
  (double_of_size_t covered / double_of_size_t actual)%float.

(** [estimate_RAW]: the uncorrected distance, [NAN] below four nucleotides. *)
Definition estimate_RAW (MM : model) : float :=
  let nucl := model_total MM in
  let SNPs := model_sum MM [AtoC; AtoG; AtoT; CtoG; CtoT; GtoT] in
  if nucl <=? 3 then nan
  else (double_of_size_t SNPs / double_of_size_t nucl)%float.

(** *** The C library's logarithm *)

(** [log] comes from the C library, not from the repository.  What the
    estimators rely on is its behaviour at the special values, fixed by C11
    Annex F.10.3.7: a NaN argument gives NaN, a negative argument is a domain
    error and gives NaN, a zero of either sign is a pole and gives minus
    infinity, and [log(1)] is [+0]. *)
Record libm : Type := Build_libm {
  log : float -> float;
  log_nan : log nan = nan;
  log_negative : forall x, (x <? 0)%float = true -> log x = nan;
  log_zero : forall x, (x =? 0)%float = true -> log x = neg_infinity;
  log_one : log 1%float = 0%float
}.

(** A reference logarithm to run the estimators with: the special values as
    above, and elsewhere [e*ln 2 + 2*atanh((m-1)/(m+1))] for the argument
    [m*2^e], the series cut after [log_terms] terms. *)
Definition ln2 : float := 0x1.62e42fefa39efp-1%float.

Definition log_terms : nat := 24.

Fixpoint atanh_tail (n : nat) (k s2 : float) : float :=
  match n with
  | O => (1 / k)%float
  | S n' => (1 / k + s2 * atanh_tail n' (k + 2) s2)%float
  end.

Definition float_of_exponent (e : Z) : float :=
  if e <? 0 then (- of_uint63 (Uint63.of_Z (- e)))%float
  else of_uint63 (Uint63.of_Z e).

Definition log_ref (x : float) : float :=
  if (x =? 0)%float then neg_infinity
  else if (x <? 0)%float then nan
  else if is_nan x then nan
  else if is_infinity x then infinity
  else if (x =? 1)%float then 0%float
  else
    let (m, e) := Z.frexp x in
    let s := ((m - 1) / (m + 1))%float in
    (float_of_exponent e * ln2 + 2 * s * atanh_tail log_terms 1 (s * s))%float.

Section Estimators.

(** The C library the program is linked against. *)
Variable c_lib : libm.

(** [estimate_JC]: the Jukes-Cantor correction of the raw distance. *)
Definition estimate_JC (MM : model) : float :=
  let dist := estimate_RAW MM in
  let dist := (-0.75 * log c_lib (1 - (4 / 3) * dist))%float in
  if (dist <=? 0)%float then 0%float else dist.

(** [estimate_KIMURA]: the Kimura two-parameter distance. *)
Definition estimate_KIMURA (MM : model) : float :=
  let nucl := model_total MM in
  let transitions := model_sum MM [AtoG; CtoT] in
  let transversions := model_sum MM [AtoC; AtoT; GtoC; GtoT] in
  let P := (double_of_size_t transitions / double_of_size_t nucl)%float in
  let Q := (double_of_size_t transversions / double_of_size_t nucl)%float in
  let tmp := (1 - 2 * P - Q)%float in
  let dist := (-0.25 * log c_lib ((1 - 2 * Q) * tmp * tmp))%float in
  if (dist <=? 0)%float then 0%float else dist.

End Estimators.

(** ** Bootstrapping *)

(** The random source behind the global [RNG]: the generator's state and
    GSL's [gsl_ran_multinomial (r, K, N, p, n)], which fills the [K] cells of
    [n] with [unsigned int] counts and advances the generator.  A draw is
    valid when the [K] counts add up to the requested [N]. *)
Record random_source : Type := Build_random_source {
  gsl_rng : Type;
  gsl_ran_multinomial : gsl_rng -> nat -> Z -> list float -> list Z * gsl_rng;
  draw_valid : forall r K N p,
    (0 < K)%nat -> 0 <= N <= UINT_MAX ->
    length (fst (gsl_ran_multinomial r K N p)) = K /\
    Forall (fun c => 0 <= c <= UINT_MAX) (fst (gsl_ran_multinomial r K N p)) /\
    sumZ (fst (gsl_ran_multinomial r K N p)) = N
}.

(** [model_bootstrap]: resample the ten counters.  The matrix comes by value;
    the sample size [nucl] is a [size_t] and is converted to the sampler's
    [unsigned int] parameter at the call. *)
Definition model_bootstrap (src : random_source) (RNG : gsl_rng src) (MM : model)
  : model * gsl_rng src :=
  let datum := MM in
  let nucl := model_total MM in
  let p :=
    map (fun i => (double_of_size_t (get (counts MM) i) / double_of_size_t nucl)%float)
        (seq 0 MUTCOUNTS) in
  let '(n, RNG') := gsl_ran_multinomial src RNG MUTCOUNTS (uint_wrap nucl) p in
  let drawn :=
    fold_left (fun c i => set c i (get n i)) (seq 0 MUTCOUNTS) (counts datum) in
  ({| counts := drawn; seq_len := seq_len datum |}, RNG').

(** A deterministic source for running the code: every draw falls into the
    first cell. *)
Definition first_cell_draw (r : unit) (K : nat) (N : Z) (p : list float)
  : list Z * unit :=
  (match K with O => [] | S K' => N :: repeat 0 K' end, r).

(** ** Counting *)

(** A C [char]: signed and eight bits wide on the targets andi builds on. *)
Definition char : Type := Z.

Definition char_of_ascii (a : ascii) : char :=
  let n := Z.of_N (N_of_ascii a) in
  if n <? 128 then n else n - 256.

Fixpoint chars_of_string (s : string) : list char :=
  match s with
  | EmptyString => []
  | String a rest => char_of_ascii a :: chars_of_string rest
  end.

(** ['A'] *)
Definition char_A : char := 65.

(** Modelled from the spec: the model selector [MODEL] and its values are
    declared in global.h, which is not among the sources; the spec lists them
    as RAW, JC, KIMURA and any other model.  The global is passed here as an
    argument. *)
Inductive evo_model : Type := M_RAW | M_JC | M_KIMURA | M_OTHER.

(** [a[i] += v] on [size_t] cells. *)
Definition add_at (a : list Z) (i : nat) (v : Z) : list Z :=
  set a i (size_t_wrap (get a i + v)).

(** The loop of the fall-back path of [model_count_equal]: [None] is a read
    past the end of the fragment. *)
Fixpoint count_equal_loop (local_counts : list Z) (subject : list char)
  (len : nat) {struct len} : option (list Z) :=
  match len with
  | O => Some local_counts
  | S len' =>
      match subject with
      | [] => None
      | s :: rest =>
          if s <? char_A then count_equal_loop local_counts rest len'
          else
            count_equal_loop
              (add_at local_counts (Z.to_nat (Z.land (Z.shiftr s 1) 3)) 1)
              rest len'
      end
  end.

(** [model_count_equal]: count an anchor of length [len].  For the three
    models of this file the length is spread over the four identity counters
    without looking at the characters. *)
Definition model_count_equal (MODEL : evo_model) (MM : model)
  (subject : list char) (len : Z) : option model :=
  match MODEL with
  | M_RAW | M_JC | M_KIMURA =>
      let fourth := len / 4 in
      let c := add_at (counts MM) AtoA fourth in
      let c := add_at c CtoC fourth in
      let c := add_at c GtoG fourth in
      let c := add_at c TtoT (size_t_wrap (fourth + Z.land len 3)) in
      Some {| counts := c; seq_len := seq_len MM |}
  | M_OTHER =>
      match count_equal_loop [0; 0; 0; 0] subject (Z.to_nat len) with
      | None => None
      | Some local_counts =>
          let c := add_at (counts MM) AtoA (get local_counts 0) in
          let c := add_at c CtoC (get local_counts 1) in
          let c := add_at c GtoG (get local_counts 3) in
          let c := add_at c TtoT (get local_counts 2) in
          Some {| counts := c; seq_len := seq_len MM |}
      end
  end.

(** [nucl2bit]: bits 1 and 2 of the character, Gray-decoded. *)
Definition nucl2bit (c : char) : char :=
  let c := Z.land c 6 in
  let c := Z.lxor c (Z.shiftr c 1) in
  Z.shiftr c 1.

Definition map4 : Z := 0x9740.

(** The body of the loop of [model_count] below the skip: the index of the
    counter a pair of characters falls into. *)
Definition mutation_index (s q : char) : Z :=
  let foo := nucl2bit s mod 256 in
  let baz := nucl2bit q mod 256 in
  let '(foo, baz) := if baz >? foo then (baz, foo) else (foo, baz) in
  let base := Z.land (Z.shiftr map4 (4 * baz)) 0xf in
  uint_wrap (base + (foo - baz)).

(** The first loop of [model_count].  [None] is an access outside an array:
    a read past the end of a fragment or a write outside [local_counts]. *)
Fixpoint count_loop (local_counts : list Z) (subject query : list char)
  (len : nat) {struct len} : option (list Z) :=
  match len with
  | O => Some local_counts
  | S len' =>
      match subject, query with
      | s :: subject', q :: query' =>
          if (s <? char_A) || (q <? char_A)
          then count_loop local_counts subject' query' len'
          else
            let index := Z.to_nat (mutation_index s q) in
            if (index <? MUTCOUNTS)%nat
            then count_loop (add_at local_counts index 1) subject' query' len'
            else None
      | _, _ => None
      end
  end.

(** [model_count]: count the substitutions of an alignment of length [len]
    into a local buffer, then add the buffer to the matrix. *)
Definition model_count (MM : model) (subject query : list char) (len : Z)
  : option model :=
  match count_loop empty_counts subject query (Z.to_nat len) with
  | None => None
  | Some local_counts =>
      Some {| counts :=
                fold_left (fun c i => add_at c i (get local_counts i))
                          (seq 0 MUTCOUNTS) (counts MM);
              seq_len := seq_len MM |}
  end.

(** ** Pointers to matrices *)

(** The matrices a caller holds, by address.  [model_average] takes two
    pointers to [const model] and returns its result by value. *)
Definition memory : Type := list model.

Definition model_average_at (mem : memory) (MM NN : nat)
  : option (model * memory) :=
  match nth_error mem MM, nth_error mem NN with
  | Some m, Some n => Some (model_average m n, mem)
  | _, _ => None
  end.

(** ** The estimators in exact arithmetic *)

(** The expressions of [estimate_RAW] and [estimate_JC] read over the real
    numbers: the same sums, quotient, logarithm and clamp, with no rounding.
    The result is [None] where there is no number to return: below four
    nucleotides, by the test of [estimate_RAW], and where the argument of the
    logarithm is not above zero. *)
Definition exact_RAW (MM : model) : option R :=
  let nucl := model_total MM in
  let SNPs := model_sum MM [AtoC; AtoG; AtoT; CtoG; CtoT; GtoT] in
  if nucl <=? 3 then None else Some (IZR SNPs / IZR nucl)%R.



(** ** Notions the statements below use *)

(** The positions among the first [len] at which both characters are at
    least ['A']. *)
Fixpoint informative (subject query : list char) (len : nat) {struct len}
  : Z :=
  match len, subject, query with
  | S len', s :: subject', q :: query' =>
      (if (s <? char_A) || (q <? char_A) then 0 else 1)
      + informative subject' query' len'
  | _, _, _ => 0
  end.

(** A strictly positive binary64, finite with exponent at least [lo] or
    infinite: neither a zero nor a NaN. *)
Definition sf_positive (lo : Z) (x : spec_float) : Prop :=
  match x with
  | S754_finite false _ e => lo <= e
  | S754_infinity false => True
  | _ => False
  end.

(** The four counters of the fall-back loop of [model_count_equal], laid out
    as the ten counters of [model_count]. *)
Definition identity_cells (local_counts : list Z) : list Z :=
  [get local_counts 0; 0; 0; 0; get local_counts 1; 0; 0;
   get local_counts 3; 0; get local_counts 2].

(** The positions among the first [len] that fall into counter [i]: both
    characters are at least ['A'] and the pair has the index [i]. *)
Fixpoint classified (i : nat) (subject query : list char) (len : nat)
  {struct len} : Z :=
  match len, subject, query with
  | S len', s :: subject', q :: query' =>
      (if (s <? char_A) || (q <? char_A) then 0
       else if (Z.to_nat (mutation_index s q) =? i)%nat then 1 else 0)
      + classified i subject' query' len'
  | _, _, _ => 0
  end.

(** [tolower] on a letter: bit 5 set. *)
Definition lower_case (c : char) : char := Z.lor c 32.

(** Two arrays of counters added cell by cell, in [size_t] arithmetic. *)
Definition add_cells (a b : list Z) : list Z :=
  map size_t_wrap (map (fun ab => fst ab + snd ab) (combine a b)).

(** The six counters of the substitutions. *)
Definition substitutions : list nat := [AtoC; AtoG; AtoT; CtoG; CtoT; GtoT].

(** *** Rounding an integer to binary64

    The notions below describe what the conversion of a positive integer to
    a [double] and the division of two such [double]s compute, in the terms
    of the specification of the primitive floats. *)

(** [r] holds [k] shifted right by [t] bits: the quotient, the last bit
    shifted out (the round bit) and whether a bit below it was set (the
    sticky bit). *)
Definition shr_bits (k t : Z) (r : shr_record) : Prop :=
  shr_m r = k / 2 ^ t
  /\ shr_r r = (if t =? 0 then false else Z.odd (k / 2 ^ (t - 1)))
  /\ shr_s r = (if t =? 0 then false else negb (k mod 2 ^ (t - 1) =? 0)).

(** The shift the rounding of the specification applies: [s] steps. *)
Definition shr_by (s : Z) (r : shr_record) : shr_record :=
  match s with
  | Zpos p => SpecFloat.iter_pos shr_1 p r
  | _ => r
  end.

(** The float of mantissa [m1] and exponent [e], for [m1] from 2^52 to 2^53:
    a mantissa that reached 2^53 takes the next exponent. *)
Definition rounded (m1 e : Z) : spec_float :=
  if m1 =? 2 ^ 53 then S754_finite false (Z.to_pos (2 ^ 52)) (e + 1)
  else S754_finite false (Z.to_pos m1) e.

(** Round to nearest, ties to even: whether dropping the [s > 0] low bits of
    [k] rounds up. *)
Definition round_up (k s : Z) : bool :=
  Z.odd (k / 2 ^ (s - 1))
  && (negb (k mod 2 ^ (s - 1) =? 0) || Z.odd (k / 2 ^ s)).

(** The binary64 nearest to the positive integer [k], ties to even. *)
Definition round53 (k : Z) : spec_float :=
  let d := Zdigits2 k in
  if d <=? 53 then S754_finite false (Z.to_pos (k * 2 ^ (53 - d))) (d - 53)
  else rounded (k / 2 ^ (d - 53) + Z.b2z (round_up k (d - 53))) (d - 53).

(** A positive finite binary64 as an integer, scaled by 2^52. *)
Definition sf_scaled (x : spec_float) : Z :=
  match x with
  | S754_finite false m e => Zpos m * 2 ^ (e + 52)
  | _ => 0
  end.

(** A positive normal binary64 of the magnitude of a [size_t]. *)
Definition sf_normal (x : spec_float) : Prop :=
  match x with
  | S754_finite false m e => 2 ^ 52 <= Zpos m < 2 ^ 53 /\ -52 <= e <= 12
  | _ => False
  end.

(** The order of two positive normal binary64s: by exponent, then by
    mantissa. *)
Definition sf_lex_le (x y : spec_float) : Prop :=
  match x, y with
  | S754_finite false mx ex, S754_finite false my ey =>
      ex < ey \/ (ex = ey /\ Zpos mx <= Zpos my)
  | _, _ => False
  end.

(** A positive binary64 that is at most 1. *)
Definition sf_at_most_one (x : spec_float) : Prop :=
  match x with
  | S754_finite false m e => e < -52 \/ (e = -52 /\ Zpos m = 2 ^ 52)
  | _ => False
  end.

(** ** Matrices the statements are run on *)

Definition matrix_a : model :=
  {| counts := [3; 1; 0; 0; 2; 0; 1; 4; 0; 5]; seq_len := 20 |}.

Definition matrix_b : model :=
  {| counts := [1; 0; 2; 0; 0; 1; 0; 0; 3; 2]; seq_len := 12 |}.

(** Three aligned positions, all A against A. *)
Definition three_matches : model :=
  {| counts := [3; 0; 0; 0; 0; 0; 0; 0; 0; 0]; seq_len := 3 |}.

Definition one_transversion : model :=
  {| counts := [0; 1; 0; 0; 0; 0; 0; 0; 0; 0]; seq_len := 1 |}.

Definition three_of_four : model :=
  {| counts := [1; 3; 0; 0; 0; 0; 0; 0; 0; 0]; seq_len := 4 |}.

Definition four_of_four : model :=
  {| counts := [0; 4; 0; 0; 0; 0; 0; 0; 0; 0]; seq_len := 4 |}.

Definition one_in_2_60 : model :=
  {| counts := [2 ^ 60 - 1; 1; 0; 0; 0; 0; 0; 0; 0; 0]; seq_len := 2 ^ 60 |}.


Definition two_to_32 : model :=
  {| counts := [2 ^ 32; 0; 0; 0; 0; 0; 0; 0; 0; 0]; seq_len := 2 ^ 32 |}.



(** * Properties *)

(** ** Arithmetic modulo 2^64 *)

Lemma size_t_wrap_small z : in_size_t z -> size_t_wrap z = z.
Proof.
  unfold in_size_t, SIZE_MAX, size_t_wrap. intros H.
  apply Z.mod_small. lia.
Qed.

Lemma size_t_wrap_range z : in_size_t (size_t_wrap z).
Proof.
  unfold in_size_t, SIZE_MAX, size_t_wrap.
  pose proof (Z.mod_pos_bound z (2 ^ 64) ltac:(lia)). lia.
Qed.

Lemma size_t_wrap_add_l a b :
  size_t_wrap (size_t_wrap a + b) = size_t_wrap (a + b).
Proof. unfold size_t_wrap. apply Zplus_mod_idemp_l. Qed.

Lemma size_t_wrap_add_r a b :
  size_t_wrap (a + size_t_wrap b) = size_t_wrap (a + b).
Proof. unfold size_t_wrap. apply Zplus_mod_idemp_r. Qed.

Lemma size_t_wrap_idem a : size_t_wrap (size_t_wrap a) = size_t_wrap a.
Proof. unfold size_t_wrap. apply Zmod_mod. Qed.

(** ** Arrays of ten counters *)

Lemma ten_cells (l : list Z) :
  length l = MUTCOUNTS ->
  exists c0 c1 c2 c3 c4 c5 c6 c7 c8 c9,
    l = [c0; c1; c2; c3; c4; c5; c6; c7; c8; c9].
Proof.
  unfold MUTCOUNTS. intros H.
  do 10 (destruct l as [| ? l]; [discriminate H |]).
  destruct l; [| discriminate H].
  repeat eexists.
Qed.

Lemma sumZ_nonneg (l : list Z) : Forall in_size_t l -> 0 <= sumZ l.
Proof.
  induction 1 as [| x l Hx _ IH]; [cbn; lia |].
  change (sumZ (x :: l)) with (x + sumZ l).
  unfold in_size_t in Hx. lia.
Qed.

Lemma sumZ_map_wrap (l : list Z) :
  size_t_wrap (sumZ (map size_t_wrap l)) = size_t_wrap (sumZ l).
Proof.
  induction l as [| x l IH]; [reflexivity |].
  change (size_t_wrap (size_t_wrap x + sumZ (map size_t_wrap l))
          = size_t_wrap (x + sumZ l)).
  rewrite size_t_wrap_add_l, <- size_t_wrap_add_r, IH, size_t_wrap_add_r.
  reflexivity.
Qed.

(** The loop of [model_total], run over the cells themselves. *)
Lemma total_loop (l : list Z) (a : Z) :
  fold_left (fun total c => size_t_wrap (total + c)) l (size_t_wrap a)
  = size_t_wrap (a + sumZ l).
Proof.
  revert a. induction l as [| x l IH]; intros a.
  - cbn. now rewrite Z.add_0_r.
  - change (fold_left (fun total c => size_t_wrap (total + c)) l
              (size_t_wrap (size_t_wrap a + x))
            = size_t_wrap (a + (x + sumZ l))).
    rewrite IH, <- Z.add_assoc, size_t_wrap_add_l. reflexivity.
Qed.

Lemma total_loop_0 (l : list Z) :
  fold_left (fun total c => size_t_wrap (total + c)) l 0
  = size_t_wrap (sumZ l).
Proof. exact (total_loop l 0). Qed.

Lemma model_total_sum (MM : model) :
  length (counts MM) = MUTCOUNTS ->
  model_total MM = size_t_wrap (sumZ (counts MM)).
Proof.
  intros H. destruct (ten_cells _ H) as (c0&c1&c2&c3&c4&c5&c6&c7&c8&c9&E).
  unfold model_total. rewrite E, <- total_loop_0.
  unfold MUTCOUNTS, get. cbn [seq fold_left nth]. reflexivity.
Qed.

Lemma model_total_exact (MM : model) :
  wf_model MM -> sumZ (counts MM) <= SIZE_MAX ->
  model_total MM = sumZ (counts MM).
Proof.
  intros (Hlen & Hc & _) Hs. rewrite model_total_sum by assumption.
  apply size_t_wrap_small. split; [now apply sumZ_nonneg | assumption].
Qed.

(** The loop of [model_average], cell by cell. *)
Lemma model_average_counts (MM NN : model) :
  length (counts MM) = MUTCOUNTS -> length (counts NN) = MUTCOUNTS ->
  counts (model_average MM NN) =
  map size_t_wrap (map (fun ab => fst ab + snd ab) (combine (counts MM) (counts NN))).
Proof.
  intros HM HN.
  destruct (ten_cells _ HM) as (a0&a1&a2&a3&a4&a5&a6&a7&a8&a9&EM).
  destruct (ten_cells _ HN) as (b0&b1&b2&b3&b4&b5&b6&b7&b8&b9&EN).
  unfold model_average. rewrite EM, EN.
  unfold MUTCOUNTS, get. cbn [seq fold_left nth set counts combine map fst snd].
  reflexivity.
Qed.

Lemma sumZ_combine_add (l1 l2 : list Z) :
  length l1 = length l2 ->
  sumZ (map (fun ab => fst ab + snd ab) (combine l1 l2)) = sumZ l1 + sumZ l2.
Proof.
  revert l2. induction l1 as [| x l1 IH]; intros [| y l2] H;
    try discriminate H; [reflexivity |].
  injection H as H. specialize (IH _ H).
  change (x + y + sumZ (map (fun ab => fst ab + snd ab) (combine l1 l2))
          = x + sumZ l1 + (y + sumZ l2)).
  lia.
Qed.

Lemma model_average_length (MM NN : model) :
  length (counts MM) = MUTCOUNTS -> length (counts NN) = MUTCOUNTS ->
  length (counts (model_average MM NN)) = MUTCOUNTS.
Proof.
  intros HM HN. rewrite model_average_counts by assumption.
  rewrite !length_map, length_combine, HM, HN. reflexivity.
Qed.

Lemma model_average_total (MM NN : model) :
  length (counts MM) = MUTCOUNTS -> length (counts NN) = MUTCOUNTS ->
  model_total (model_average MM NN) =
  size_t_wrap (model_total MM + model_total NN).
Proof.
  intros HM HN.
  rewrite !model_total_sum by auto using model_average_length.
  rewrite model_average_counts, sumZ_map_wrap, sumZ_combine_add by congruence.
  now rewrite size_t_wrap_add_l, size_t_wrap_add_r.
Qed.

Lemma model_average_wf (MM NN : model) :
  length (counts MM) = MUTCOUNTS -> length (counts NN) = MUTCOUNTS ->
  wf_model (model_average MM NN).
Proof.
  intros HM HN. split; [now apply model_average_length |]. split.
  - rewrite model_average_counts by assumption.
    apply Forall_map, Forall_forall. intros x _. apply size_t_wrap_range.
  - apply size_t_wrap_range.
Qed.

Lemma map_wrap_add_comm (l1 l2 : list Z) :
  map size_t_wrap (map (fun ab => fst ab + snd ab) (combine l1 l2)) =
  map size_t_wrap (map (fun ab => fst ab + snd ab) (combine l2 l1)).
Proof.
  revert l2. induction l1 as [| x l1 IH]; intros [| y l2]; try reflexivity.
  cbn [combine map fst snd]. rewrite IH, (Z.add_comm x y). reflexivity.
Qed.

Lemma map_wrap_add_assoc (l1 l2 l3 : list Z) :
  map size_t_wrap (map (fun ab => fst ab + snd ab)
    (combine (map size_t_wrap (map (fun ab => fst ab + snd ab) (combine l1 l2))) l3)) =
  map size_t_wrap (map (fun ab => fst ab + snd ab)
    (combine l1 (map size_t_wrap (map (fun ab => fst ab + snd ab) (combine l2 l3))))).
Proof.
  revert l2 l3. induction l1 as [| x l1 IH]; intros [| y l2] [| z l3];
    try reflexivity.
  cbn [combine map fst snd]. rewrite IH.
  rewrite size_t_wrap_add_l, size_t_wrap_add_r, Z.add_assoc. reflexivity.
Qed.

(** C6.  [model_average] adds the counters cell by cell and the two reference
    lengths, so it adds the totals (in [size_t] arithmetic, and exactly when
    the two sums of counters fit a [size_t] together); it is commutative and
    associative on the counters; and, taking its arguments through pointers,
    it leaves the memory it reads as it was. *)
Theorem model_average_total_comm_assoc (A B C : model) :
  wf_model A -> wf_model B -> wf_model C ->
  model_total (model_average A B) = size_t_wrap (model_total A + model_total B)
  /\ (sumZ (counts A) + sumZ (counts B) <= SIZE_MAX ->
      model_total (model_average A B) = model_total A + model_total B)
  /\ seq_len (model_average A B) = size_t_wrap (seq_len A + seq_len B)
  /\ counts (model_average A B) = counts (model_average B A)
  /\ counts (model_average (model_average A B) C)
     = counts (model_average A (model_average B C))
  /\ (forall mem pA pB r mem',
        model_average_at mem pA pB = Some (r, mem') -> mem' = mem).
Proof.
  intros (HA & HAc & HAl) (HB & HBc & HBl) (HC & HCc & HCl).
  split; [now apply model_average_total |].
  split.
  { intros Hs. rewrite model_average_total by assumption.
    pose proof (sumZ_nonneg _ HAc). pose proof (sumZ_nonneg _ HBc).
    rewrite !model_total_exact; try (split; [| split]; assumption); try lia.
    apply size_t_wrap_small. unfold in_size_t. lia. }
  split; [reflexivity |].
  split.
  { rewrite !model_average_counts by assumption. apply map_wrap_add_comm. }
  split.
  { rewrite (model_average_counts (model_average A B) C)
      by auto using model_average_length.
    rewrite (model_average_counts A (model_average B C))
      by auto using model_average_length.
    rewrite (model_average_counts A B), (model_average_counts B C)
      by assumption.
    apply map_wrap_add_assoc. }
  intros mem pA pB r mem'. unfold model_average_at.
  destruct (nth_error mem pA), (nth_error mem pB); intros E;
    try discriminate E.
  now injection E.
Qed.

Lemma matrix_a_wf : wf_model matrix_a.
Proof.
  unfold wf_model, in_size_t, SIZE_MAX. cbn.
  repeat split; repeat constructor; lia.
Qed.

Lemma matrix_b_wf : wf_model matrix_b.
Proof.
  unfold wf_model, in_size_t, SIZE_MAX. cbn.
  repeat split; repeat constructor; lia.
Qed.

Lemma model_average_total_comm_assoc_witness :
  model_total (model_average matrix_a matrix_b)
    = size_t_wrap (model_total matrix_a + model_total matrix_b)
  /\ (sumZ (counts matrix_a) + sumZ (counts matrix_b) <= SIZE_MAX ->
      model_total (model_average matrix_a matrix_b)
      = model_total matrix_a + model_total matrix_b)
  /\ seq_len (model_average matrix_a matrix_b)
     = size_t_wrap (seq_len matrix_a + seq_len matrix_b)
  /\ counts (model_average matrix_a matrix_b)
     = counts (model_average matrix_b matrix_a)
  /\ counts (model_average (model_average matrix_a matrix_b) matrix_a)
     = counts (model_average matrix_a (model_average matrix_b matrix_a))
  /\ (forall mem pA pB r mem',
        model_average_at mem pA pB = Some (r, mem') -> mem' = mem).
Proof.
  exact (model_average_total_comm_assoc matrix_a matrix_b matrix_a
           matrix_a_wf matrix_b_wf matrix_a_wf).
Defined.

(** ** Writing one cell *)

Lemma set_length (l : list Z) i v : length (set l i v) = length l.
Proof.
  revert i. induction l as [| x l IH]; intros [| i]; cbn; congruence.
Qed.

Lemma set_sum (l : list Z) i v :
  (i < length l)%nat -> sumZ (set l i v) = sumZ l - get l i + v.
Proof.
  revert i. induction l as [| x l IH]; intros [| i] H; cbn in H; try lia.
  - change (v + sumZ l = x + sumZ l - x + v). lia.
  - change (x + sumZ (set l i v) = x + sumZ l - get l i + v).
    rewrite IH by lia. lia.
Qed.

Lemma set_Forall (P : Z -> Prop) (l : list Z) i v :
  P v -> Forall P l -> Forall P (set l i v).
Proof.
  intros Hv H. revert i. induction H as [| x l Hx Hl IH]; intros [| i]; cbn;
    constructor; auto.
Qed.

Lemma add_at_length (l : list Z) i v : length (add_at l i v) = length l.
Proof. apply set_length. Qed.

Lemma add_at_sum (l : list Z) i v :
  (i < length l)%nat ->
  size_t_wrap (sumZ (add_at l i v)) = size_t_wrap (sumZ l + v).
Proof.
  intros H. unfold add_at. rewrite set_sum by assumption.
  rewrite size_t_wrap_add_r. f_equal. lia.
Qed.

Lemma add_at_Forall (l : list Z) i v :
  Forall in_size_t l -> Forall in_size_t (add_at l i v).
Proof. apply set_Forall, size_t_wrap_range. Qed.

(** The second loop of [model_count], cell by cell. *)
Lemma merge_counts (c l : list Z) :
  length c = MUTCOUNTS -> length l = MUTCOUNTS ->
  fold_left (fun c i => add_at c i (get l i)) (seq 0 MUTCOUNTS) c =
  map size_t_wrap (map (fun ab => fst ab + snd ab) (combine c l)).
Proof.
  intros Hc Hl.
  destruct (ten_cells _ Hc) as (a0&a1&a2&a3&a4&a5&a6&a7&a8&a9&Ec).
  destruct (ten_cells _ Hl) as (b0&b1&b2&b3&b4&b5&b6&b7&b8&b9&El).
  rewrite Ec, El. unfold MUTCOUNTS, add_at, get.
  cbn [seq fold_left nth set combine map fst snd]. reflexivity.
Qed.

(** ** The two-bit code of a nucleotide *)

Lemma land_6_mod_8 (c : Z) : Z.land c 6 = Z.land (c mod 8) 6.
Proof.
  change 8 with (2 ^ 3). rewrite <- Z.land_ones by lia.
  rewrite <- Z.land_assoc. reflexivity.
Qed.

Lemma mod_8_cases (c : Z) :
  c mod 8 = 0 \/ c mod 8 = 1 \/ c mod 8 = 2 \/ c mod 8 = 3 \/
  c mod 8 = 4 \/ c mod 8 = 5 \/ c mod 8 = 6 \/ c mod 8 = 7.
Proof. pose proof (Z.mod_pos_bound c 8 ltac:(lia)). lia. Qed.

Lemma nucl2bit_cases (c : char) :
  nucl2bit c = 0 \/ nucl2bit c = 1 \/ nucl2bit c = 2 \/ nucl2bit c = 3.
Proof.
  unfold nucl2bit. rewrite land_6_mod_8.
  destruct (mod_8_cases c) as [E|[E|[E|[E|[E|[E|[E|E]]]]]]]; rewrite E; cbn;
    tauto.
Qed.

(** The four nucleotides get the codes the comment of [nucl2bit] lists. *)
Lemma nucl2bit_ACGT :
  map nucl2bit (chars_of_string "ACGT") = [0; 1; 2; 3].
Proof. reflexivity. Qed.

Lemma mutation_index_range (s q : char) : 0 <= mutation_index s q <= 9.
Proof.
  unfold mutation_index.
  destruct (nucl2bit_cases s) as [Es|[Es|[Es|Es]]];
    destruct (nucl2bit_cases q) as [Eq|[Eq|[Eq|Eq]]];
    rewrite Es, Eq; vm_compute; split; discriminate.
Qed.

(** ** The counting loop *)

Lemma informative_range subject query len :
  0 <= informative subject query len <= Z.of_nat len.
Proof.
  revert subject query. induction len as [| len IH]; intros [| s ss] [| q qs];
    cbn [informative]; try lia.
  specialize (IH ss qs). destruct ((s <? char_A) || (q <? char_A)); lia.
Qed.

Lemma count_loop_step_counted local s q subject query len :
  char_A <= s -> char_A <= q ->
  count_loop local (s :: subject) (q :: query) (S len) =
  count_loop (add_at local (Z.to_nat (mutation_index s q)) 1) subject query len.
Proof.
  intros Hs Hq. cbn [count_loop].
  destruct (Z.ltb_spec s char_A); [lia |].
  destruct (Z.ltb_spec q char_A); [lia |]. cbn [orb].
  pose proof (mutation_index_range s q) as R.
  destruct (Nat.ltb_spec (Z.to_nat (mutation_index s q)) MUTCOUNTS) as [_ | Hi];
    [reflexivity |].
  unfold MUTCOUNTS in Hi. lia.
Qed.

Lemma count_loop_step_skipped local s q subject query len :
  s < char_A \/ q < char_A ->
  count_loop local (s :: subject) (q :: query) (S len) =
  count_loop local subject query len.
Proof.
  intros H. cbn [count_loop].
  destruct (Z.ltb_spec s char_A); [reflexivity |].
  destruct (Z.ltb_spec q char_A); [reflexivity | lia].
Qed.

Lemma count_loop_total len : forall local subject query,
  length local = MUTCOUNTS ->
  (len <= length subject)%nat -> (len <= length query)%nat ->
  exists local',
    count_loop local subject query len = Some local' /\
    length local' = MUTCOUNTS /\
    (Forall in_size_t local -> Forall in_size_t local') /\
    size_t_wrap (sumZ local')
    = size_t_wrap (sumZ local + informative subject query len).
Proof.
  induction len as [| len IH]; intros local subject query Hl Hs Hq.
  - exists local. destruct subject, query; cbn [count_loop informative];
      rewrite Z.add_0_r; auto.
  - destruct subject as [| s ss]; [cbn in Hs; lia |].
    destruct query as [| q qs]; [cbn in Hq; lia |].
    cbn [length] in Hs, Hq. cbn [informative].
    destruct (Z.ltb_spec s char_A) as [Hs' | Hs'].
    + rewrite count_loop_step_skipped by auto. cbn [orb].
      apply IH; auto; lia.
    + destruct (Z.ltb_spec q char_A) as [Hq' | Hq'].
      * rewrite count_loop_step_skipped by auto. cbn [orb].
        apply IH; auto; lia.
      * rewrite count_loop_step_counted by assumption. cbn [orb].
        pose proof (mutation_index_range s q) as R.
        destruct (IH (add_at local (Z.to_nat (mutation_index s q)) 1) ss qs)
          as (local' & E & Hl' & HF & Hsum);
          [now rewrite add_at_length | lia | lia |].
        exists local'. repeat split; auto using add_at_Forall.
        rewrite Hsum, <- size_t_wrap_add_l, add_at_sum, size_t_wrap_add_l.
        { f_equal. lia. }
        rewrite Hl. unfold MUTCOUNTS. lia.
Qed.

Lemma sumZ_empty_counts : sumZ empty_counts = 0.
Proof. reflexivity. Qed.

Lemma model_count_total (MM : model) (subject query : list char) (len : nat) :
  length (counts MM) = MUTCOUNTS ->
  (len <= length subject)%nat -> (len <= length query)%nat ->
  exists MM',
    model_count MM subject query (Z.of_nat len) = Some MM' /\
    length (counts MM') = MUTCOUNTS /\
    seq_len MM' = seq_len MM /\
    model_total MM'
    = size_t_wrap (model_total MM + informative subject query len).
Proof.
  intros HM Hs Hq.
  destruct (count_loop_total len empty_counts subject query eq_refl Hs Hq)
    as (local' & E & Hl & _ & Hsum).
  unfold model_count. rewrite Nat2Z.id, E.
  eexists. split; [reflexivity |]. cbn [counts seq_len].
  rewrite merge_counts by assumption.
  assert (Hlen : length (map size_t_wrap
            (map (fun ab => fst ab + snd ab) (combine (counts MM) local')))
          = MUTCOUNTS).
  { rewrite !length_map, length_combine, HM, Hl. reflexivity. }
  split; [exact Hlen |]. split; [reflexivity |].
  rewrite !model_total_sum by assumption. cbn [counts].
    rewrite sumZ_map_wrap, sumZ_combine_add by congruence.
  rewrite size_t_wrap_add_l, <- size_t_wrap_add_r, Hsum, sumZ_empty_counts.
  rewrite size_t_wrap_add_r. reflexivity.
Qed.

(** C10.  Whatever the two characters, the index [model_count] computes for
    them lies in 0..9, so no increment leaves [local_counts]: on fragments of
    at least [len] characters the function runs to its end without an access
    outside an array, and the total grows by the number of positions at which
    both characters are at least ['A'] (in [size_t] arithmetic, and exactly
    when that sum fits a [size_t]). *)
Theorem model_count_in_bounds (MM : model) (subject query : list char)
  (len : Z) :
  wf_model MM -> 0 <= len ->
  len <= Z.of_nat (length subject) -> len <= Z.of_nat (length query) ->
  (forall s q, char_A <= s -> char_A <= q -> 0 <= mutation_index s q <= 9)
  /\ exists MM',
       model_count MM subject query len = Some MM'
       /\ model_total MM'
          = size_t_wrap (model_total MM + informative subject query (Z.to_nat len))
       /\ (sumZ (counts MM) + informative subject query (Z.to_nat len) <= SIZE_MAX ->
           model_total MM'
           = model_total MM + informative subject query (Z.to_nat len)).
Proof.
  intros HM Hlen Hs Hq.
  split; [intros s q _ _; apply mutation_index_range |].
  destruct (model_count_total MM subject query (Z.to_nat len))
    as (MM' & E & _ & _ & Ht); [apply HM | lia | lia |].
  rewrite Z2Nat.id in E by assumption.
  exists MM'. split; [exact E |]. split; [exact Ht |].
  intros Hfit. rewrite Ht.
  pose proof (informative_range subject query (Z.to_nat len)) as R.
  destruct HM as (Hl & Hc & Hsl).
  pose proof (sumZ_nonneg _ Hc) as Hnn.
  rewrite model_total_exact; [| split; [| split]; assumption | lia].
  apply size_t_wrap_small. unfold in_size_t. lia.
Qed.

Lemma empty_model_wf len : in_size_t len -> wf_model (empty_model len).
Proof.
  intros H. split; [reflexivity |]. split; [| exact H].
  unfold in_size_t, SIZE_MAX. repeat constructor; lia.
Qed.

Lemma in_size_t_5 : in_size_t 5.
Proof. unfold in_size_t, SIZE_MAX. lia. Qed.

Lemma model_count_in_bounds_witness :
  (forall s q, char_A <= s -> char_A <= q -> 0 <= mutation_index s q <= 9)
  /\ exists MM',
       model_count (empty_model 5) (chars_of_string "AAC;T")
         (chars_of_string "AACGA") 5 = Some MM'
       /\ model_total MM'
          = size_t_wrap (model_total (empty_model 5) +
              informative (chars_of_string "AAC;T") (chars_of_string "AACGA")
                (Z.to_nat 5))
       /\ (sumZ (counts (empty_model 5)) +
             informative (chars_of_string "AAC;T") (chars_of_string "AACGA")
               (Z.to_nat 5) <= SIZE_MAX ->
           model_total MM'
           = model_total (empty_model 5) +
             informative (chars_of_string "AAC;T") (chars_of_string "AACGA")
               (Z.to_nat 5)).
Proof.
  apply (model_count_in_bounds (empty_model 5) (chars_of_string "AAC;T")
           (chars_of_string "AACGA") 5 (empty_model_wf 5 in_size_t_5)).
  - lia.
  - cbn. lia.
  - cbn. lia.
Defined.

(** ** Special characters *)

Lemma count_loop_skip_at (pre_s : list char) :
  forall (pre_q : list char) local s q post_s post_q n,
  length pre_s = length pre_q ->
  s < char_A \/ q < char_A ->
  count_loop local (pre_s ++ s :: post_s) (pre_q ++ q :: post_q)
    (length pre_s + S n)
  = count_loop local (pre_s ++ post_s) (pre_q ++ post_q) (length pre_s + n).
Proof.
  induction pre_s as [| a pre_s IH]; intros [| b pre_q] local s q post_s post_q n
    Hlen Hsq; try discriminate Hlen.
  - cbn [app length Nat.add]. now apply count_loop_step_skipped.
  - injection Hlen as Hlen.
    cbn [app length Nat.add count_loop].
    destruct ((a <? char_A) || (b <? char_A)); [now apply IH |].
    destruct (Z.to_nat (mutation_index a b) <? MUTCOUNTS)%nat;
      [now apply IH | reflexivity].
Qed.

(** C3, as the code has it.  A position at which either character is below
    ['A'] is skipped wherever it stands: the matrix [model_count] leaves is
    the one it leaves on the fragments with that position taken out.  A
    position at which both characters are at least ['A'] is counted, in the
    counter [mutation_index] names. *)
Theorem model_count_skips_below_A (MM : model)
  (pre_s pre_q post_s post_q : list char) (s q : char) (len : Z) :
  length pre_s = length pre_q ->
  Z.of_nat (length pre_s) < len ->
  s < char_A \/ q < char_A ->
  model_count MM (pre_s ++ s :: post_s) (pre_q ++ q :: post_q) len
  = model_count MM (pre_s ++ post_s) (pre_q ++ post_q) (len - 1)
  /\ (forall local s' q' subject query n,
        char_A <= s' -> char_A <= q' ->
        count_loop local (s' :: subject) (q' :: query) (S n)
        = count_loop (add_at local (Z.to_nat (mutation_index s' q')) 1)
            subject query n).
Proof.
  intros Hlen Hpos Hsq. split.
  - unfold model_count.
    replace (Z.to_nat len) with (length pre_s + S (Z.to_nat (len - 1 - Z.of_nat (length pre_s))))%nat by lia.
    replace (Z.to_nat (len - 1)) with (length pre_s + Z.to_nat (len - 1 - Z.of_nat (length pre_s)))%nat by lia.
    now rewrite count_loop_skip_at.
  - intros. now apply count_loop_step_counted.
Qed.

Lemma model_count_skips_below_A_witness :
  model_count (empty_model 5)
    (chars_of_string "AC" ++ char_of_ascii "!" :: chars_of_string "GT")
    (chars_of_string "AC" ++ char_of_ascii "G" :: chars_of_string "GA") 5
  = model_count (empty_model 5)
      (chars_of_string "AC" ++ chars_of_string "GT")
      (chars_of_string "AC" ++ chars_of_string "GA") (5 - 1)
  /\ (forall local s' q' subject query n,
        char_A <= s' -> char_A <= q' ->
        count_loop local (s' :: subject) (q' :: query) (S n)
        = count_loop (add_at local (Z.to_nat (mutation_index s' q')) 1)
            subject query n).
Proof.
  apply (model_count_skips_below_A (empty_model 5)
           (chars_of_string "AC") (chars_of_string "AC")
           (chars_of_string "GT") (chars_of_string "GA")
           (char_of_ascii "!") (char_of_ascii "G") 5).
  - reflexivity.
  - cbn. lia.
  - left. vm_compute. reflexivity.
Defined.

(** The claim as the spec words it fails on an ambiguity code: ['N'] is not
    below ['A'], its bits 1 and 2 are those of ['G'], and a position holding
    it is counted. *)
Lemma model_count_counts_N :
  model_count (empty_model 1) (chars_of_string "N") (chars_of_string "N") 1
  = Some {| counts := [0; 0; 0; 0; 0; 0; 0; 1; 0; 0]; seq_len := 1 |}
  /\ model_count (empty_model 1) (chars_of_string "A") (chars_of_string "N") 1
     = Some {| counts := [0; 0; 1; 0; 0; 0; 0; 0; 0; 0]; seq_len := 1 |}
  /\ model_total {| counts := [0; 0; 0; 0; 0; 0; 0; 1; 0; 0]; seq_len := 1 |} = 1.
Proof. repeat split. Qed.

(** ** Binary64: rounding keeps a positive number positive *)

(** The lemmas of this part read the conversions and the division through
    the specification of the primitive floats: a positive integer converts
    to a positive float, never to a zero or a NaN. *)

Lemma digits2_pos_lower (m : positive) :
  2 ^ (Zpos (digits2_pos m) - 1) <= Zpos m.
Proof.
  induction m as [m IH | m IH |]; cbn [digits2_pos]; [| | cbn; lia];
    rewrite Pos2Z.inj_succ;
    replace (Z.succ (Zpos (digits2_pos m)) - 1)
      with (Z.succ (Zpos (digits2_pos m) - 1)) by lia;
    rewrite Z.pow_succ_r by lia; lia.
Qed.

Lemma shr_1_m (r : shr_record) :
  0 <= shr_m r -> shr_m (shr_1 r) = shr_m r / 2.
Proof.
  destruct r as [m r s]. cbn [shr_m]. intros H.
  destruct m as [| [p | p |] | p]; cbn [shr_1 shr_m];
    try reflexivity; try lia.
  - rewrite (Pos2Z.inj_xI p). Z.div_mod_to_equations. lia.
  - rewrite (Pos2Z.inj_xO p). Z.div_mod_to_equations. lia.
Qed.

Lemma div_pow2_twice (a j k : Z) :
  0 <= j -> 0 <= k -> a / 2 ^ j / 2 ^ k = a / 2 ^ (j + k).
Proof.
  intros Hj Hk.
  assert (0 < 2 ^ j) by (apply Z.pow_pos_nonneg; lia).
  assert (0 < 2 ^ k) by (apply Z.pow_pos_nonneg; lia).
  rewrite Z.div_div, <- Z.pow_add_r by lia. reflexivity.
Qed.

Lemma div_pow2_nonneg (a k : Z) : 0 <= a -> 0 <= k -> 0 <= a / 2 ^ k.
Proof.
  intros. apply Z.div_pos; [assumption | apply Z.pow_pos_nonneg; lia].
Qed.

Lemma iter_shr_1_m (p : positive) : forall r,
  0 <= shr_m r ->
  shr_m (SpecFloat.iter_pos shr_1 p r) = shr_m r / 2 ^ Zpos p.
Proof.
  induction p as [p IH | p IH |]; intros r H; cbn [SpecFloat.iter_pos].
  - assert (H1 : 0 <= shr_m (shr_1 r)).
    { rewrite shr_1_m by assumption. apply (div_pow2_nonneg _ 1); lia. }
    assert (H2 : 0 <= shr_m (SpecFloat.iter_pos shr_1 p (shr_1 r))).
    { rewrite IH by assumption. apply div_pow2_nonneg; lia. }
    rewrite IH, IH, shr_1_m by assumption.
    change (shr_m r / 2) with (shr_m r / 2 ^ 1).
    rewrite !div_pow2_twice by lia. f_equal. f_equal. lia.
  - assert (H2 : 0 <= shr_m (SpecFloat.iter_pos shr_1 p r)).
    { rewrite IH by assumption. apply div_pow2_nonneg; lia. }
    rewrite IH, IH by assumption.
    rewrite div_pow2_twice by lia. f_equal. f_equal. lia.
  - rewrite shr_1_m by assumption. reflexivity.
Qed.

Lemma shr_record_of_loc_m m l : shr_m (shr_record_of_loc m l) = m.
Proof. destruct l as [| []]; reflexivity. Qed.

Lemma shr_fexp_positive (m : positive) (e : Z) (l : location) :
  emin <= e ->
  0 < shr_m (fst (shr_fexp prec emax (Zpos m) e l))
  /\ e <= snd (shr_fexp prec emax (Zpos m) e l).
Proof.
  intros He. unfold shr_fexp, shr, fexp, SpecFloat.emin, emin, prec, emax in *.
  cbn [Zdigits2].
  pose proof (digits2_pos_lower m) as Hd.
  set (d := Zpos (digits2_pos m)) in *.
  destruct (Z.max (d + e - 53) (3 - 1024 - 53) - e) as [| p | p] eqn:En;
    cbn [fst snd]; rewrite ?shr_record_of_loc_m; try lia.
  rewrite iter_shr_1_m by (rewrite shr_record_of_loc_m; lia).
  rewrite shr_record_of_loc_m.
  assert (Ep : Zpos p = d - 53) by lia.
  split; [| lia].
  apply Z.div_str_pos. split; [apply Z.pow_pos_nonneg; lia |].
  rewrite Ep. etransitivity; [| exact Hd].
  apply Z.pow_le_mono_r; lia.
Qed.

Lemma round_nearest_even_positive m l : 0 < m -> 0 < round_nearest_even m l.
Proof.
  intros H. destruct l as [| []]; cbn [round_nearest_even]; try lia.
  destruct (Z.even m); lia.
Qed.

Lemma binary_round_aux_positive (m : positive) (e : Z) (l : location) :
  emin <= e ->
  sf_positive e (binary_round_aux prec emax false (Zpos m) e l).
Proof.
  intros He. unfold binary_round_aux.
  destruct (shr_fexp_positive m e l He) as [Hm1 He1].
  destruct (shr_fexp prec emax (Zpos m) e l) as [mrs' e'].
  cbn [fst snd] in Hm1, He1.
  pose proof (round_nearest_even_positive (shr_m mrs') (loc_of_shr_record mrs') Hm1) as Hm2.
  destruct (round_nearest_even (shr_m mrs') (loc_of_shr_record mrs')) as [| m2 | m2];
    try lia.
  destruct (shr_fexp_positive m2 e' loc_Exact ltac:(lia)) as [Hm3 He3].
  destruct (shr_fexp prec emax (Zpos m2) e' loc_Exact) as [mrs'' e''].
  cbn [fst snd] in Hm3, He3.
  destruct (shr_m mrs'') as [| m3 | m3]; try lia.
  destruct (e'' <=? emax - prec); cbn; [lia | exact I].
Qed.

Lemma sf_positive_weaken lo lo' x :
  lo' <= lo -> sf_positive lo x -> sf_positive lo' x.
Proof. destruct x as [| [] | | [] m e]; cbn; auto. lia. Qed.

Lemma binary_round_positive (m : positive) :
  sf_positive (-52) (binary_round prec emax false m 0).
Proof.
  unfold binary_round, shl_align.
  pose proof (Pos2Z.is_pos (digits2_pos m)) as Hd.
  assert (Hf : -52 <= fexp prec emax (Z.pos (digits2_pos m) + 0)).
  { unfold fexp, prec. lia. }
  destruct (fexp prec emax (Z.pos (digits2_pos m) + 0) - 0) as [| d | d] eqn:E.
  - apply sf_positive_weaken with 0; [lia |].
    apply binary_round_aux_positive. unfold emin, SpecFloat.emin, emax, prec. lia.
  - apply sf_positive_weaken with 0; [lia |].
    apply binary_round_aux_positive. unfold emin, SpecFloat.emin, emax, prec. lia.
  - eapply sf_positive_weaken; [exact Hf |].
    apply binary_round_aux_positive.
    unfold emin, SpecFloat.emin, fexp, emax, prec. lia.
Qed.

Lemma of_uint63_positive (n : int) :
  0 < Uint63.to_Z n -> sf_positive (-52) (Prim2SF (of_uint63 n)).
Proof.
  intros H. rewrite of_uint63_spec. unfold binary_normalize.
  destruct (Uint63.to_Z n) as [| m | m]; try lia.
  apply binary_round_positive.
Qed.

Lemma of_Z_positive (n : Z) :
  0 < n < 2 ^ 63 -> sf_positive (-52) (Prim2SF (of_uint63 (Uint63.of_Z n))).
Proof.
  intros H. apply of_uint63_positive. rewrite Uint63.of_Z_spec.
  change wB with (2 ^ 63). rewrite Z.mod_small; lia.
Qed.

Lemma sticky_half_range (n : Z) :
  2 ^ 63 <= n <= SIZE_MAX ->
  0 < Z.lor (Z.shiftr n 1) (Z.land n 1) < 2 ^ 63.
Proof.
  unfold SIZE_MAX. intros H.
  assert (Hh : 2 ^ 62 <= Z.shiftr n 1 < 2 ^ 63).
  { rewrite Z.shiftr_div_pow2 by lia. change (2 ^ 1) with 2.
    Z.div_mod_to_equations. lia. }
  assert (Hl : 0 <= Z.land n 1 <= 1).
  { change (Z.land n 1) with (Z.land n (Z.ones 1)).
    rewrite Z.land_ones by lia.
    change (2 ^ 1) with 2. Z.div_mod_to_equations. lia. }
  assert (Hnn : 0 <= Z.lor (Z.shiftr n 1) (Z.land n 1)).
  { apply Z.lor_nonneg. lia. }
  assert (Hlog : Z.log2 (Z.lor (Z.shiftr n 1) (Z.land n 1)) = 62).
  { rewrite Z.log2_lor by lia.
    assert (Z.log2 (Z.shiftr n 1) = 62).
    { apply Z.log2_unique; [lia |].
      change (2 ^ Z.succ 62) with (2 ^ 63). exact Hh. }
    assert (Z.log2 (Z.land n 1) <= 0).
    { destruct (Z.eq_dec (Z.land n 1) 0) as [-> | Hne]; [reflexivity |].
      replace (Z.land n 1) with 1 by lia. reflexivity. }
    lia. }
  assert (Hpos : 0 < Z.lor (Z.shiftr n 1) (Z.land n 1)).
  { destruct (Z.eq_dec (Z.lor (Z.shiftr n 1) (Z.land n 1)) 0) as [E0 | Hne];
      [| lia].
    apply Z.lor_eq_0_iff in E0. lia. }
  split; [exact Hpos |].
  apply Z.log2_lt_pow2; lia.
Qed.

Lemma double_of_size_t_positive (n : Z) :
  0 < n <= SIZE_MAX -> sf_positive emin (Prim2SF (double_of_size_t n)).
Proof.
  intros H. unfold double_of_size_t.
  destruct (Z.ltb_spec n (2 ^ 63)) as [Hlt | Hge].
  - apply sf_positive_weaken with (-52); [unfold emin, SpecFloat.emin; cbn; lia |].
    apply of_Z_positive. lia.
  - pose proof (of_Z_positive _ (sticky_half_range n ltac:(lia))) as Hx.
    rewrite FloatAxioms.mul_spec.
    change (Prim2SF 2) with (S754_finite false 4503599627370496 (-51)).
    destruct (Prim2SF (of_uint63 (of_Z (Z.lor (Z.shiftr n 1) (Z.land n 1)))))
      as [| [] | | [] m e]; cbn in Hx; try contradiction.
    + exact I.
    + unfold SF64mul, SFmul. cbn [xorb].
      eapply sf_positive_weaken; [| apply binary_round_aux_positive].
      * unfold emin, SpecFloat.emin, emax, prec. lia.
      * unfold emin, SpecFloat.emin, emax, prec. lia.
Qed.

Lemma zero_div_positive (lo : Z) (y : float) :
  sf_positive lo (Prim2SF y) -> (0 / y)%float = 0%float.
Proof.
  intros H. apply Prim2SF_inj. rewrite FloatAxioms.div_spec.
  change (Prim2SF 0) with (S754_zero false).
  destruct (Prim2SF y) as [| [] | | [] m e]; cbn in H; try contradiction;
    reflexivity.
Qed.

Lemma double_of_size_t_0 : double_of_size_t 0 = 0%float.
Proof. reflexivity. Qed.

(** ** Binary64: the conversion of an integer, exactly *)

Lemma digits2_pos_upper (m : positive) : Zpos m < 2 ^ Zpos (digits2_pos m).
Proof.
  induction m as [m IH | m IH |]; cbn [digits2_pos]; [| | cbn; lia];
    rewrite Pos2Z.inj_succ, Z.pow_succ_r by lia; lia.
Qed.

Lemma pow2_pos (k : Z) : 0 <= k -> 0 < 2 ^ k.
Proof. intros. apply Z.pow_pos_nonneg; lia. Qed.

Lemma digits2_pos_unique (m : positive) (d : Z) :
  2 ^ (d - 1) <= Zpos m < 2 ^ d -> Zpos (digits2_pos m) = d.
Proof.
  intros [Hlo Hhi].
  pose proof (digits2_pos_lower m) as Hl. pose proof (digits2_pos_upper m) as Hu.
  set (d' := Zpos (digits2_pos m)) in *.
  assert (Hd' : 0 < d') by (subst d'; lia).
  assert (Hd : 0 < d).
  { destruct (Z.lt_ge_cases 0 d) as [|Hn]; [assumption |].
    exfalso. rewrite (Z.pow_neg_r 2 (d - 1)) in Hlo by lia.
    destruct (Z.eq_dec d 0) as [-> | Hne]; [cbn in Hhi; lia |].
    rewrite Z.pow_neg_r in Hhi by lia. lia. }
  destruct (Z.lt_trichotomy d' d) as [Hlt | [Heq | Hgt]]; [| exact Heq |].
  - exfalso. assert (2 ^ d' <= 2 ^ (d - 1)) by (apply Z.pow_le_mono_r; lia). lia.
  - exfalso. assert (2 ^ d <= 2 ^ (d' - 1)) by (apply Z.pow_le_mono_r; lia). lia.
Qed.

Lemma shr_1_fields (r : shr_record) :
  0 <= shr_m r ->
  shr_1 r = {| shr_m := shr_m r / 2; shr_r := Z.odd (shr_m r);
               shr_s := shr_r r || shr_s r |}.
Proof.
  destruct r as [m r s]. cbn [shr_m shr_r shr_s]. intros H.
  destruct m as [| [p | p |] | p]; cbn [shr_1]; try lia; try reflexivity.
  - f_equal. rewrite (Pos2Z.inj_xI p). Z.div_mod_to_equations. lia.
  - f_equal. rewrite (Pos2Z.inj_xO p). Z.div_mod_to_equations. lia.
Qed.

Lemma mod_pow2_succ (k t : Z) :
  0 <= t ->
  k mod 2 ^ (t + 1) = 2 ^ t * ((k / 2 ^ t) mod 2) + k mod 2 ^ t.
Proof.
  intros Ht. pose proof (pow2_pos t Ht) as Hp.
  rewrite Z.pow_add_r by lia. change (2 ^ 1) with 2.
  rewrite Z.rem_mul_r by lia. lia.
Qed.

Lemma odd_mod2 (z : Z) : Z.odd z = negb (z mod 2 =? 0).
Proof.
  rewrite Zmod_odd. destruct (Z.odd z); reflexivity.
Qed.

Lemma shr_bits_step (k t : Z) (r : shr_record) :
  0 <= k -> 0 <= t -> shr_bits k t r -> shr_bits k (t + 1) (shr_1 r).
Proof.
  intros Hk Ht (Hm & Hr & Hs).
  assert (Hnn : 0 <= shr_m r).
  { rewrite Hm. apply Z.div_pos; [assumption | now apply pow2_pos]. }
  rewrite shr_1_fields by assumption. unfold shr_bits. cbn [shr_m shr_r shr_s].
  destruct (Z.eqb_spec (t + 1) 0) as [E | _]; [lia |].
  replace (t + 1 - 1) with t by lia.
  split; [| split].
  - rewrite Hm, Z.pow_add_r by lia. change (2 ^ 1) with 2.
    rewrite Z.div_div by (pose proof (pow2_pos t Ht); lia). reflexivity.
  - now rewrite Hm.
  - rewrite Hr, Hs. destruct (Z.eqb_spec t 0) as [-> | Hne].
    + cbn. rewrite Z.mod_1_r. reflexivity.
    + replace t with (t - 1 + 1) at 3 by lia.
      rewrite mod_pow2_succ by lia.
      pose proof (pow2_pos (t - 1) ltac:(lia)) as Hp.
      pose proof (Z.mod_pos_bound k (2 ^ (t - 1)) Hp) as Hb.
      rewrite odd_mod2.
      pose proof (Z.mod_pos_bound (k / 2 ^ (t - 1)) 2 ltac:(lia)) as Hb2.
      destruct (Z.eqb_spec ((k / 2 ^ (t - 1)) mod 2) 0) as [E0 | E0];
        destruct (Z.eqb_spec (k mod 2 ^ (t - 1)) 0) as [E1 | E1];
        destruct (Z.eqb_spec (2 ^ (t - 1) * ((k / 2 ^ (t - 1)) mod 2)
                              + k mod 2 ^ (t - 1)) 0) as [E2 | E2];
        cbn [negb orb]; try reflexivity; exfalso; nia.
Qed.

Lemma shr_bits_iter (p : positive) : forall k t r,
  0 <= k -> 0 <= t -> shr_bits k t r ->
  shr_bits k (t + Zpos p) (SpecFloat.iter_pos shr_1 p r).
Proof.
  induction p as [p IH | p IH |]; intros k t r Hk Ht H; cbn [SpecFloat.iter_pos].
  - replace (t + Z.pos p~1) with (t + 1 + Z.pos p + Z.pos p) by lia.
    apply IH; try lia. apply IH; try lia. now apply shr_bits_step.
  - replace (t + Z.pos p~0) with (t + Z.pos p + Z.pos p) by lia.
    apply IH; try lia. now apply IH.
  - now apply shr_bits_step.
Qed.

Lemma shr_bits_start (k : Z) : shr_bits k 0 (shr_record_of_loc k loc_Exact).
Proof.
  unfold shr_bits. cbn. rewrite Z.div_1_r. auto.
Qed.


Lemma shr_fexp_by (k : positive) (e : Z) (l : location) (s : Z) :
  Zpos (digits2_pos k) = 53 + s -> 0 <= s -> emin <= e ->
  shr_fexp prec emax (Zpos k) e l
  = (shr_by s (shr_record_of_loc (Zpos k) l), e + s).
Proof.
  intros Hd Hs He. unfold shr_fexp, shr, fexp, shr_by. cbn [Zdigits2].
  rewrite Hd. unfold emin, SpecFloat.emin, prec, emax in *.
  replace (Z.max (53 + s + e - 53) (3 - 1024 - 53) - e) with s by lia.
  destruct s as [| p | p]; try lia; [now rewrite Z.add_0_r | reflexivity].
Qed.

Lemma shr_by_m (s : Z) (r : shr_record) :
  0 <= s -> 0 <= shr_m r -> shr_m (shr_by s r) = shr_m r / 2 ^ s.
Proof.
  intros Hs Hm. destruct s as [| p | p]; try lia; cbn [shr_by].
  - now rewrite Z.div_1_r.
  - now apply iter_shr_1_m.
Qed.

Lemma loc_of_shr_record_of_loc m l :
  loc_of_shr_record (shr_record_of_loc m l) = l.
Proof. destruct l as [| []]; reflexivity. Qed.

Lemma div_pow2_digits (k s : Z) :
  0 <= s -> 2 ^ (53 + s - 1) <= k < 2 ^ (53 + s) ->
  2 ^ 52 <= k / 2 ^ s < 2 ^ 53.
Proof.
  intros Hs [Hlo Hhi]. pose proof (pow2_pos s Hs) as Hp.
  replace (53 + s - 1) with (52 + s) in Hlo by lia.
  rewrite Z.pow_add_r in Hlo, Hhi by lia.
  split.
  - apply Z.div_le_lower_bound; lia.
  - apply Z.div_lt_upper_bound; lia.
Qed.

Lemma round_nearest_even_cases m l :
  round_nearest_even m l = m \/ round_nearest_even m l = m + 1.
Proof.
  destruct l as [| []]; cbn [round_nearest_even]; auto.
  destruct (Z.even m); auto.
Qed.

Lemma binary_round_aux_53 (m1 : positive) (e : Z) :
  2 ^ 52 <= Zpos m1 <= 2 ^ 53 -> emin <= e -> e + 1 <= emax - prec ->
  (let '(mrs, e') := shr_fexp prec emax (Zpos m1) e loc_Exact in
   match shr_m mrs with
   | Z0 => S754_zero false
   | Zpos m => if e' <=? emax - prec then S754_finite false m e'
               else S754_infinity false
   | Zneg _ => S754_nan
   end) = rounded (Zpos m1) e.
Proof.
  intros Hm He Hemax. unfold rounded.
  destruct (Z.eqb_spec (Zpos m1) (2 ^ 53)) as [E | Hne].
  - rewrite (shr_fexp_by m1 e loc_Exact 1); try lia.
    2: { apply digits2_pos_unique. rewrite E. cbn. lia. }
    rewrite E. cbn [shr_by shr_record_of_loc SpecFloat.iter_pos].
    change (shr_m (shr_1 {| shr_m := 2 ^ 53; shr_r := false; shr_s := false |}))
      with (2 ^ 52).
    change (2 ^ 52) with (Zpos (Z.to_pos (2 ^ 52))).
    cbv beta iota.
    destruct (Z.leb_spec (e + 1) (emax - prec)); [reflexivity | lia].
  - rewrite (shr_fexp_by m1 e loc_Exact 0); try lia.
    2: { apply digits2_pos_unique. change (53 + 0 - 1) with 52.
         change (53 + 0) with 53. lia. }
    cbn [shr_by shr_record_of_loc shr_m]. rewrite Z.add_0_r, Pos2Z.id.
    destruct (Z.leb_spec e (emax - prec)); [reflexivity | lia].
Qed.

Lemma binary_round_aux_gen (k : positive) (e : Z) (l : location) (s : Z) :
  Zpos (digits2_pos k) = 53 + s -> 0 <= s -> emin <= e ->
  e + s + 1 <= emax - prec ->
  2 ^ 52 <= Zpos k / 2 ^ s < 2 ^ 53
  /\ shr_m (shr_by s (shr_record_of_loc (Zpos k) l)) = Zpos k / 2 ^ s
  /\ binary_round_aux prec emax false (Zpos k) e l
     = rounded
         (round_nearest_even (Zpos k / 2 ^ s)
            (loc_of_shr_record (shr_by s (shr_record_of_loc (Zpos k) l))))
         (e + s).
Proof.
  intros Hd Hs He Hemax.
  assert (Hm0 : 2 ^ 52 <= Zpos k / 2 ^ s < 2 ^ 53).
  { apply div_pow2_digits; [assumption |]. rewrite <- Hd.
    split; [apply digits2_pos_lower | apply digits2_pos_upper]. }
  assert (Hm : shr_m (shr_by s (shr_record_of_loc (Zpos k) l)) = Zpos k / 2 ^ s).
  { rewrite shr_by_m, shr_record_of_loc_m; try reflexivity; try assumption.
    rewrite shr_record_of_loc_m. lia. }
  split; [exact Hm0 |]. split; [exact Hm |].
  unfold binary_round_aux. rewrite (shr_fexp_by k e l s) by assumption.
  rewrite Hm.
  set (loc := loc_of_shr_record _).
  destruct (round_nearest_even_cases (Zpos k / 2 ^ s) loc) as [E | E];
    rewrite E.
  - destruct (Zpos k / 2 ^ s) as [| m1 | m1] eqn:Em; try lia.
    apply binary_round_aux_53; unfold emin, SpecFloat.emin, emax, prec in *; lia.
  - destruct (Zpos k / 2 ^ s + 1) as [| m1 | m1] eqn:Em; try lia.
    apply binary_round_aux_53; unfold emin, SpecFloat.emin, emax, prec in *; lia.
Qed.


Lemma round_nearest_even_bits (r : shr_record) :
  round_nearest_even (shr_m r) (loc_of_shr_record r)
  = shr_m r + Z.b2z (shr_r r && (shr_s r || Z.odd (shr_m r))).
Proof.
  destruct r as [m [] []]; cbn [shr_m shr_r shr_s loc_of_shr_record
    round_nearest_even andb orb Z.b2z]; try lia.
  rewrite <- Z.negb_odd. destruct (Z.odd m); cbn; lia.
Qed.

Lemma pos_iter_xO (p n : positive) :
  Zpos (Pos.iter xO p n) = Zpos p * 2 ^ Zpos n.
Proof.
  revert p. induction n as [| n IH] using Pos.peano_ind; intros p.
  - cbn. lia.
  - rewrite Pos.iter_succ, Pos2Z.inj_xO, IH, Pos2Z.inj_succ, Z.pow_succ_r by lia.
    lia.
Qed.

Lemma binary_round_aux_exact (m : positive) (e : Z) :
  2 ^ 52 <= Zpos m < 2 ^ 53 -> emin <= e -> e + 1 <= emax - prec ->
  binary_round_aux prec emax false (Zpos m) e loc_Exact = S754_finite false m e.
Proof.
  intros Hm He Hemax.
  assert (Hd : Zpos (digits2_pos m) = 53 + 0) by (apply digits2_pos_unique; cbn; lia).
  destruct (binary_round_aux_gen m e loc_Exact 0 Hd ltac:(lia) He ltac:(lia))
    as (_ & _ & E).
  rewrite E. cbn [shr_by]. rewrite loc_of_shr_record_of_loc.
  cbn [round_nearest_even]. change (2 ^ 0) with 1. rewrite Z.div_1_r, Z.add_0_r.
  unfold rounded. destruct (Z.eqb_spec (Zpos m) (2 ^ 53)); [lia |].
  now rewrite Pos2Z.id.
Qed.

Lemma binary_round_round53 (p : positive) :
  Zpos (digits2_pos p) <= 1000 ->
  binary_round prec emax false p 0 = round53 (Zpos p).
Proof.
  intros Hd. unfold binary_round, shl_align, round53, fexp. cbn [Zdigits2].
  pose proof (digits2_pos_lower p) as Hlo. pose proof (digits2_pos_upper p) as Hhi.
  set (d := Zpos (digits2_pos p)) in *.
  assert (Hd0 : 0 < d) by (subst d; lia).
  unfold emin, SpecFloat.emin, prec, emax.
  replace (Z.max (d + 0 - 53) (3 - 1024 - 53)) with (d - 53) by lia.
  rewrite Z.sub_0_r.
  destruct (Z.leb_spec d 53) as [Hle | Hgt].
  - destruct (d - 53) as [| q | q] eqn:Eq; try lia.
    + replace (53 - d) with 0 by lia. change (2 ^ 0) with 1.
      rewrite Z.mul_1_r, Pos2Z.id.
      apply binary_round_aux_exact; unfold emin, SpecFloat.emin, prec, emax;
        try lia.
      replace d with 53 in * by lia. cbn in Hlo. lia.
    + assert (Em : Zpos (Pos.iter xO p q) = Zpos p * 2 ^ (53 - d)).
      { rewrite pos_iter_xO. f_equal. f_equal. lia. }
      rewrite <- Em, Pos2Z.id.
      apply binary_round_aux_exact; unfold emin, SpecFloat.emin, prec, emax;
        try lia.
      rewrite Em. pose proof (pow2_pos (53 - d) ltac:(lia)) as Hp.
      replace (2 ^ 52) with (2 ^ (d - 1) * 2 ^ (53 - d))
        by (rewrite <- Z.pow_add_r by lia; f_equal; lia).
      replace (2 ^ 53) with (2 ^ d * 2 ^ (53 - d))
        by (rewrite <- Z.pow_add_r by lia; f_equal; lia).
      nia.
  - destruct (d - 53) as [| q | q] eqn:Eq; try lia.
    assert (Hdq : Zpos (digits2_pos p) = 53 + Zpos q) by (fold d; lia).
    destruct (binary_round_aux_gen p 0 loc_Exact (Zpos q) Hdq ltac:(lia))
      as (Hm0 & Hm & E);
      [unfold emin, SpecFloat.emin, prec, emax; lia
      | unfold emin, SpecFloat.emin, prec, emax; lia |].
    cbv beta iota. unfold prec, emax in E.
    rewrite E, Z.add_0_l, <- Hm, round_nearest_even_bits, Hm.
    pose proof (shr_bits_iter q (Zpos p) 0 _ ltac:(lia) ltac:(lia)
                  (shr_bits_start (Zpos p))) as (_ & Hr & Hs).
    rewrite Z.add_0_l in Hr, Hs.
    destruct (Z.eqb_spec (Zpos q) 0) as [E0 | _]; [lia |].
    cbn [shr_by]. rewrite Hr, Hs. reflexivity.
Qed.


Lemma digits2_pos_le (p : positive) (d : Z) :
  Zpos p < 2 ^ d -> Zpos (digits2_pos p) <= d.
Proof.
  intros H. pose proof (digits2_pos_lower p) as Hlo.
  destruct (Z.le_gt_cases (Zpos (digits2_pos p)) d) as [| Hgt]; [assumption |].
  exfalso.
  assert (2 ^ d <= 2 ^ (Zpos (digits2_pos p) - 1)) by (apply Z.pow_le_mono_r; lia).
  lia.
Qed.

Lemma of_Z_round53 (n : Z) :
  0 < n < 2 ^ 63 -> Prim2SF (of_uint63 (Uint63.of_Z n)) = round53 n.
Proof.
  intros H. rewrite of_uint63_spec, Uint63.of_Z_spec.
  change wB with (2 ^ 63). rewrite Z.mod_small by lia.
  destruct n as [| p | p]; try lia. cbn [binary_normalize].
  apply binary_round_round53.
  pose proof (digits2_pos_le p 63 ltac:(lia)). lia.
Qed.

Lemma sticky_half_arith (n : Z) :
  0 <= n ->
  Z.lor (Z.shiftr n 1) (Z.land n 1)
  = n / 2 + (n mod 2) * (1 - (n / 2) mod 2).
Proof.
  intros Hn. rewrite Z.shiftr_div_pow2 by lia. change (2 ^ 1) with 2.
  change (Z.land n 1) with (Z.land n (Z.ones 1)).
  rewrite Z.land_ones by lia. change (2 ^ 1) with 2.
  pose proof (Z.mod_pos_bound n 2 ltac:(lia)) as Hb.
  pose proof (Z.add_lor_land (n / 2) (n mod 2)) as E.
  assert (Hl : Z.land (n / 2) (n mod 2) = (n mod 2) * ((n / 2) mod 2)).
  { destruct (Z.eq_dec (n mod 2) 0) as [E0 | E0].
    - rewrite E0, Z.land_0_r. lia.
    - replace (n mod 2) with 1 by lia.
      change (Z.land (n / 2) 1) with (Z.land (n / 2) (Z.ones 1)).
      rewrite Z.land_ones by lia. change (2 ^ 1) with 2. lia. }
  lia.
Qed.

Lemma mul_2_exact (m : positive) (e : Z) :
  2 ^ 52 <= Zpos m < 2 ^ 53 -> emin <= e - 51 -> e + 2 <= emax - prec ->
  SF64mul (S754_finite false m e) (Prim2SF 2) = S754_finite false m (e + 1).
Proof.
  intros Hm He Hemax.
  change (Prim2SF 2) with (S754_finite false (Z.to_pos (2 ^ 52)) (-51)).
  unfold SF64mul, SFmul. cbn [xorb].
  assert (Ek : Zpos (m * Z.to_pos (2 ^ 52)) = Zpos m * 2 ^ 52) by reflexivity.
  assert (Hd : Zpos (digits2_pos (m * Z.to_pos (2 ^ 52))) = 53 + 52).
  { apply digits2_pos_unique. rewrite Ek.
    change (2 ^ (53 + 52 - 1)) with (2 ^ 52 * 2 ^ 52).
    change (2 ^ (53 + 52)) with (2 ^ 53 * 2 ^ 52). lia. }
  destruct (binary_round_aux_gen _ (e + -51) loc_Exact 52 Hd ltac:(lia))
    as (Hm0 & Hmm & E); [lia | lia |].
  rewrite E. rewrite <- Hmm, round_nearest_even_bits, Hmm.
  pose proof (shr_bits_iter 52 (Zpos m * 2 ^ 52) 0 _ ltac:(lia) ltac:(lia)
                (shr_bits_start _)) as (_ & Hr & _).
  rewrite <- Ek in Hr. cbn [shr_by].
  rewrite Hr, Ek. change (0 + 52 - 1) with 51. cbn [Z.eqb Z.add].
  replace (Z.pos m * 2 ^ 52 / 2 ^ 51) with (Zpos m * 2)
    by (change (2 ^ 52) with (2 * 2 ^ 51); rewrite Z.mul_assoc, Z.div_mul; lia).
  rewrite Z.div_mul by lia.
  replace (Z.odd (Zpos m * 2)) with false
    by (rewrite Z.mul_comm, Z.odd_mul; reflexivity).
  cbn [andb Z.b2z]. rewrite Z.add_0_r. unfold rounded.
  destruct (Z.eqb_spec (Zpos m) (2 ^ 53)); [lia |].
  rewrite Pos2Z.id. f_equal. lia.
Qed.

Lemma round53_digits (k d : Z) :
  53 < d -> 2 ^ (d - 1) <= k < 2 ^ d ->
  round53 k = rounded (k / 2 ^ (d - 53) + Z.b2z (round_up k (d - 53))) (d - 53).
Proof.
  intros Hd Hk. unfold round53.
  assert (0 < 2 ^ (d - 1)) by (apply pow2_pos; lia).
  destruct k as [| p | p]; try lia. cbn [Zdigits2].
  rewrite (digits2_pos_unique p d Hk).
  destruct (Z.leb_spec d 53); [lia | reflexivity].
Qed.

Lemma round_up_sticky (n : Z) :
  0 <= n ->
  round_up (n / 2 + (n mod 2) * (1 - (n / 2) mod 2)) 10 = round_up n 11
  /\ (n / 2 + (n mod 2) * (1 - (n / 2) mod 2)) / 2 ^ 10 = n / 2 ^ 11.
Proof.
  intros Hn. unfold round_up.
  change (11 - 1) with 10. change (10 - 1) with 9.
  change (2 ^ 9) with 512. change (2 ^ 10) with 1024. change (2 ^ 11) with 2048.
  set (n' := n / 2 + (n mod 2) * (1 - (n / 2) mod 2)).
  assert (E1 : n' / 1024 = n / 2048) by (subst n'; Z.div_mod_to_equations; nia).
  assert (E2 : n' / 512 = n / 1024) by (subst n'; Z.div_mod_to_equations; nia).
  assert (E3 : (n' mod 512 =? 0) = (n mod 1024 =? 0)).
  { destruct (Z.eqb_spec (n' mod 512) 0); destruct (Z.eqb_spec (n mod 1024) 0);
      try reflexivity; exfalso; subst n'; Z.div_mod_to_equations; nia. }
  rewrite E1, E2, E3. auto.
Qed.


Lemma mul_2_rounded (m1 e : Z) :
  2 ^ 52 <= m1 <= 2 ^ 53 -> emin <= e - 51 -> e + 3 <= emax - prec ->
  SF64mul (rounded m1 e) (Prim2SF 2) = rounded m1 (e + 1).
Proof.
  intros Hm He Hemax. unfold rounded.
  unfold emin, SpecFloat.emin, emax, prec in He, Hemax.
  destruct (Z.eqb_spec m1 (2 ^ 53)).
  - apply mul_2_exact; unfold emin, SpecFloat.emin, emax, prec; cbn; lia.
  - destruct m1 as [| p | p]; try lia. rewrite Pos2Z.id.
    apply mul_2_exact; unfold emin, SpecFloat.emin, emax, prec; lia.
Qed.

(** The cast of a positive [size_t] is the nearest binary64. *)
Theorem double_of_size_t_round53 (n : Z) :
  0 < n <= SIZE_MAX -> Prim2SF (double_of_size_t n) = round53 n.
Proof.
  intros Hn. unfold double_of_size_t.
  destruct (Z.ltb_spec n (2 ^ 63)) as [Hlt | Hge].
  - apply of_Z_round53. lia.
  - pose proof (sticky_half_range n ltac:(lia)) as Hs.
    rewrite FloatAxioms.mul_spec, of_Z_round53 by assumption.
    rewrite sticky_half_arith in * by lia.
    set (n' := n / 2 + n mod 2 * (1 - (n / 2) mod 2)) in *.
    assert (Hn' : 2 ^ (63 - 1) <= n' < 2 ^ 63).
    { split; [| lia]. subst n'. unfold SIZE_MAX in Hn.
      Z.div_mod_to_equations. nia. }
    rewrite (round53_digits n' 63) by (assumption || lia).
    rewrite (round53_digits n 64) by (unfold SIZE_MAX in Hn; lia).
    destruct (round_up_sticky n ltac:(lia)) as [Eu Ed]. fold n' in Eu, Ed.
    change (63 - 53) with 10. change (64 - 53) with 11.
    rewrite <- Eu, <- Ed.
    pose proof (div_pow2_digits n' 10 ltac:(lia) Hn') as Hm0.
    apply mul_2_rounded; unfold emin, SpecFloat.emin, emax, prec; try lia.
    destruct (round_up n' 10); cbn [Z.b2z]; lia.
Qed.

(** [double_of_size_t] is the conversion the specification of the floats
    defines for an integer: round to nearest, ties to even. *)
Theorem double_of_size_t_correct (n : Z) :
  0 <= n <= SIZE_MAX ->
  Prim2SF (double_of_size_t n) = binary_normalize prec emax n 0 false.
Proof.
  intros Hn. destruct (Z.eq_dec n 0) as [-> | Hne]; [reflexivity |].
  rewrite double_of_size_t_round53 by lia.
  destruct n as [| p | p]; try lia. cbn [binary_normalize].
  symmetry. apply binary_round_round53.
  unfold SIZE_MAX in Hn. pose proof (digits2_pos_le p 64 ltac:(lia)). lia.
Qed.

(** ** Binary64: the conversion is monotone *)

Lemma rounded_normal (m1 e : Z) :
  2 ^ 52 <= m1 <= 2 ^ 53 -> -52 <= e <= 11 ->
  sf_normal (rounded m1 e) /\ sf_scaled (rounded m1 e) = m1 * 2 ^ (e + 52).
Proof.
  intros Hm He. unfold rounded.
  destruct (Z.eqb_spec m1 (2 ^ 53)) as [-> | Hne]; cbn [sf_normal sf_scaled].
  - change (Z.pos (Z.to_pos (2 ^ 52))) with (2 ^ 52).
    split; [lia |].
    assert (E : 2 ^ (e + 1 + 52) = 2 * 2 ^ (e + 52)).
    { replace (e + 1 + 52) with (Z.succ (e + 52)) by lia.
      apply Z.pow_succ_r. lia. }
    rewrite E. change (2 ^ 53) with (2 * 2 ^ 52). lia.
  - destruct m1 as [| p | p]; try lia.
Qed.

Lemma digits_of (k : Z) :
  0 < k -> 0 < Zdigits2 k /\ 2 ^ (Zdigits2 k - 1) <= k < 2 ^ Zdigits2 k.
Proof.
  intros H. destruct k as [| p | p]; try lia. cbn [Zdigits2].
  split; [lia |]. split; [apply digits2_pos_lower | apply digits2_pos_upper].
Qed.

Lemma round53_normal (k : Z) :
  0 < k <= SIZE_MAX ->
  sf_normal (round53 k)
  /\ sf_scaled (round53 k)
     = if Zdigits2 k <=? 53 then k * 2 ^ 52
       else (k / 2 ^ (Zdigits2 k - 53) + Z.b2z (round_up k (Zdigits2 k - 53)))
            * 2 ^ (Zdigits2 k - 53 + 52).
Proof.
  intros Hk. destruct (digits_of k ltac:(lia)) as (Hd0 & Hlo & Hhi).
  assert (Hd64 : Zdigits2 k <= 64).
  { destruct k as [| p | p]; try lia. cbn [Zdigits2].
    apply digits2_pos_le. unfold SIZE_MAX in Hk. lia. }
  unfold round53. set (d := Zdigits2 k) in *.
  destruct (Z.leb_spec d 53) as [Hle | Hgt].
  - assert (Hp : 0 < 2 ^ (53 - d)) by (apply pow2_pos; lia).
    assert (E52 : 2 ^ 52 = 2 ^ (d - 1) * 2 ^ (53 - d))
      by (rewrite <- Z.pow_add_r by lia; f_equal; lia).
    assert (E53 : 2 ^ 53 = 2 ^ d * 2 ^ (53 - d))
      by (rewrite <- Z.pow_add_r by lia; f_equal; lia).
    cbn [sf_normal sf_scaled]. rewrite Z2Pos.id by nia.
    split; [split; [nia | lia] |].
    rewrite <- Z.mul_assoc, <- Z.pow_add_r by lia. do 2 f_equal. lia.
  - pose proof (div_pow2_digits k (d - 53) ltac:(lia)) as Hm0.
    replace (53 + (d - 53)) with d in Hm0 by lia.
    replace (53 + (d - 53) - 1) with (d - 1) in Hm0 by lia.
    specialize (Hm0 (conj Hlo Hhi)).
    apply rounded_normal; [| lia].
    destruct (round_up k (d - 53)); cbn [Z.b2z]; lia.
Qed.


Lemma round_up_mono (a b s : Z) :
  0 < s -> 0 <= a <= b -> a / 2 ^ s = b / 2 ^ s ->
  round_up a s = true -> round_up b s = true.
Proof.
  intros Hs Hab Hm. unfold round_up. rewrite <- Hm.
  assert (Hh : 0 < 2 ^ (s - 1)) by (apply pow2_pos; lia).
  assert (E2 : 2 ^ s = 2 ^ (s - 1) * 2).
  { replace s with (Z.succ (s - 1)) at 1 by lia. rewrite Z.pow_succ_r by lia. lia. }
  assert (Eda : a / 2 ^ s = a / 2 ^ (s - 1) / 2)
    by (rewrite E2, Z.div_div by lia; reflexivity).
  assert (Edb : b / 2 ^ s = b / 2 ^ (s - 1) / 2)
    by (rewrite E2, Z.div_div by lia; reflexivity).
  rewrite Eda in Hm. rewrite Edb in Hm.
  set (h := 2 ^ (s - 1)) in *.
  assert (Hq : a / h <= b / h) by (apply Z.div_le_mono; lia).
  pose proof (Z.div_mod a h ltac:(lia)) as Ea.
  pose proof (Z.div_mod b h ltac:(lia)) as Eb.
  pose proof (Z.mod_pos_bound a h Hh) as Ba.
  pose proof (Z.mod_pos_bound b h Hh) as Bb.
  rewrite !andb_true_iff, !orb_true_iff, !negb_true_iff, !Z.eqb_neq.
  rewrite !odd_mod2, !negb_true_iff, !Z.eqb_neq.
  intros [Hoa Hra].
  assert (Eq : a / h = b / h) by (Z.div_mod_to_equations; lia).
  split; [rewrite <- Eq; exact Hoa |].
  destruct Hra as [Hla | Hodd]; [left | right; exact Hodd].
  rewrite Eq in Ea. nia.
Qed.

Lemma digits_mono (a b : Z) : 0 < a <= b -> Zdigits2 a <= Zdigits2 b.
Proof.
  intros H. destruct (digits_of a ltac:(lia)) as (Ha0 & Hal & Hau).
  destruct (digits_of b ltac:(lia)) as (Hb0 & Hbl & Hbu).
  destruct (Z.le_gt_cases (Zdigits2 a) (Zdigits2 b)) as [| Hgt]; [assumption |].
  exfalso.
  assert (2 ^ Zdigits2 b <= 2 ^ (Zdigits2 a - 1)) by (apply Z.pow_le_mono_r; lia).
  lia.
Qed.

Lemma round53_mono (a b : Z) :
  0 < a <= b -> b <= SIZE_MAX ->
  sf_scaled (round53 a) <= sf_scaled (round53 b).
Proof.
  intros Hab Hb.
  destruct (round53_normal a ltac:(lia)) as [_ Ea].
  destruct (round53_normal b ltac:(lia)) as [_ Eb].
  rewrite Ea, Eb. clear Ea Eb.
  pose proof (digits_mono a b Hab) as Hd.
  destruct (digits_of a ltac:(lia)) as (Ha0 & Hal & Hau).
  destruct (digits_of b ltac:(lia)) as (Hb0 & Hbl & Hbu).
  set (da := Zdigits2 a) in *. set (db := Zdigits2 b) in *.
  destruct (Z.leb_spec da 53) as [Ha53 | Ha53];
    destruct (Z.leb_spec db 53) as [Hb53 | Hb53]; try lia.
  - pose proof (div_pow2_digits b (db - 53) ltac:(lia)) as Hmb.
    replace (53 + (db - 53)) with db in Hmb by lia.
    replace (53 + (db - 53) - 1) with (db - 1) in Hmb by lia.
    specialize (Hmb (conj Hbl Hbu)).
    assert (Hp : 2 ^ 53 <= 2 ^ (db - 53 + 52)) by (apply Z.pow_le_mono_r; lia).
    assert (Ha : a < 2 ^ 53).
    { assert (2 ^ da <= 2 ^ 53) by (apply Z.pow_le_mono_r; lia). lia. }
    assert (0 <= Z.b2z (round_up b (db - 53))) by (destruct (round_up b (db - 53)); cbn; lia).
    change (2 ^ 53) with (2 * 2 ^ 52) in Hp, Ha. nia.
  - pose proof (div_pow2_digits a (da - 53) ltac:(lia)) as Hma.
    replace (53 + (da - 53)) with da in Hma by lia.
    replace (53 + (da - 53) - 1) with (da - 1) in Hma by lia.
    specialize (Hma (conj Hal Hau)).
    pose proof (div_pow2_digits b (db - 53) ltac:(lia)) as Hmb.
    replace (53 + (db - 53)) with db in Hmb by lia.
    replace (53 + (db - 53) - 1) with (db - 1) in Hmb by lia.
    specialize (Hmb (conj Hbl Hbu)).
    assert (Hua : 0 <= Z.b2z (round_up a (da - 53)) <= 1)
      by (destruct (round_up a (da - 53)); cbn; lia).
    assert (Hub : 0 <= Z.b2z (round_up b (db - 53)) <= 1)
      by (destruct (round_up b (db - 53)); cbn; lia).
    destruct (Z.eq_dec da db) as [Ed | Ed].
    + rewrite <- Ed in *.
      assert (Hp : 0 < 2 ^ (da - 53 + 52)) by (apply pow2_pos; lia).
      apply Z.mul_le_mono_nonneg_r; [lia |].
      assert (Hdiv : a / 2 ^ (da - 53) <= b / 2 ^ (da - 53)).
      { apply Z.div_le_mono; [apply pow2_pos |]; lia. }
      destruct (Z.eq_dec (a / 2 ^ (da - 53)) (b / 2 ^ (da - 53))) as [Em | Em];
        [| lia].
      rewrite <- Em.
      destruct (round_up a (da - 53)) eqn:Eua; [| cbn [Z.b2z]; lia].
      rewrite (round_up_mono a b (da - 53)); try assumption; lia.
    + assert (Hp : 2 ^ (da - 53 + 53) <= 2 ^ (db - 53 + 52))
        by (apply Z.pow_le_mono_r; lia).
      assert (Hs : 2 ^ (da - 53 + 53) = 2 * 2 ^ (da - 53 + 52)).
      { replace (da - 53 + 53) with (Z.succ (da - 53 + 52)) by lia.
        apply Z.pow_succ_r. lia. }
      assert (Hpa : 0 < 2 ^ (da - 53 + 52)) by (apply pow2_pos; lia).
      change (2 ^ 53) with (2 * 2 ^ 52) in Hma. nia.
Qed.

Lemma lex_of_scaled (x y : spec_float) :
  sf_normal x -> sf_normal y -> sf_scaled x <= sf_scaled y -> sf_lex_le x y.
Proof.
  destruct x as [| | | [] mx ex]; try contradiction.
  destruct y as [| | | [] my ey]; try contradiction.
  cbn [sf_normal sf_scaled sf_lex_le]. intros [Hmx Hex] [Hmy Hey] H.
  assert (Hp : 0 < 2 ^ (ey + 52)) by (apply pow2_pos; lia).
  destruct (Z.lt_trichotomy ex ey) as [Hlt | [Heq | Hgt]]; [now left | right | exfalso].
  - subst ey. split; [reflexivity | nia].
  - assert (Hq : 2 ^ (ey + 52 + 1) <= 2 ^ (ex + 52)) by (apply Z.pow_le_mono_r; lia).
    replace (ey + 52 + 1) with (Z.succ (ey + 52)) in Hq by lia.
    rewrite Z.pow_succ_r in Hq by lia.
    change (2 ^ 53) with (2 * 2 ^ 52) in Hmy. nia.
Qed.


Lemma sf_at_most_one_leb (x : spec_float) :
  sf_at_most_one x ->
  SFleb x (Prim2SF 1) = true /\ SFleb (Prim2SF 0) x = true.
Proof.
  change (Prim2SF 1) with (S754_finite false (Z.to_pos (2 ^ 52)) (-52)).
  change (Prim2SF 0) with (S754_zero false).
  destruct x as [| | | [] m e]; try contradiction.
  cbn [sf_at_most_one]. unfold SFleb, SFcompare.
  intros [H | [-> H]].
  - rewrite (proj2 (Z.compare_lt_iff e (-52)) H). auto.
  - assert (m = Z.to_pos (2 ^ 52)) as -> by lia.
    rewrite Z.compare_refl, Pos.compare_cont_refl. auto.
Qed.

Lemma rounded_at_most_one (m1 e : Z) :
  2 ^ 52 <= m1 <= 2 ^ 53 ->
  e < -52 \/ (e = -52 /\ m1 = 2 ^ 52) ->
  sf_at_most_one (rounded m1 e).
Proof.
  intros Hm He. unfold rounded.
  destruct (Z.eqb_spec m1 (2 ^ 53)) as [E | Hne]; cbn [sf_at_most_one].
  - change (Z.pos (Z.to_pos (2 ^ 52))) with (2 ^ 52).
    destruct He as [He | [_ E']]; [lia | rewrite E in E'; discriminate E'].
  - rewrite Z2Pos.id by lia. lia.
Qed.

Lemma new_location_0 (n : Z) : new_location n 0 = loc_Exact.
Proof.
  unfold new_location, new_location_even, new_location_odd.
  destruct (Z.even n); reflexivity.
Qed.

Lemma SFdiv_at_most_one (mx my : positive) (ex ey : Z) :
  sf_normal (S754_finite false mx ex) ->
  sf_normal (S754_finite false my ey) ->
  sf_lex_le (S754_finite false mx ex) (S754_finite false my ey) ->
  sf_at_most_one (SF64div (S754_finite false mx ex) (S754_finite false my ey)).
Proof.
  cbn [sf_normal sf_lex_le]. intros [Hmx Hex] [Hmy Hey] Hle.
  unfold SF64div, SFdiv, SFdiv_core_binary. cbn [Zdigits2 xorb].
  rewrite (digits2_pos_unique mx 53), (digits2_pos_unique my 53)
    by (change (53 - 1) with 52; lia).
  unfold fexp, SpecFloat.emin, prec, emax.
  replace (Z.min (Z.max (53 + ex - (53 + ey) - 53) (3 - 1024 - 53)) (ex - ey))
    with (ex - ey - 53) by lia.
  replace (ex - ey - (ex - ey - 53)) with 53 by lia.
  cbv beta iota zeta.
  rewrite Z.shiftl_mul_pow2 by lia.
  pose proof (Z_div_mod (Zpos mx * 2 ^ 53) (Zpos my) ltac:(lia)) as Hdm.
  destruct (Z.div_eucl (Zpos mx * 2 ^ 53) (Zpos my)) as [q r].
  destruct Hdm as [Eq Hr].
  assert (Hq : 2 ^ 52 <= q < 2 ^ 54).
  { change (2 ^ 54) with (2 * 2 ^ 53). change (2 ^ 53) with (2 * 2 ^ 52) in *.
    split; nia. }
  destruct q as [| q | q]; try lia.
  destruct (Z.ltb_spec (Zpos q) (2 ^ 53)) as [Hs0 | Hs1].
  - assert (Hd : Zpos (digits2_pos q) = 53 + 0)
      by (apply digits2_pos_unique; change (53 + 0 - 1) with 52;
          change (53 + 0) with 53; lia).
    destruct (binary_round_aux_gen q (ex - ey - 53) (new_location (Zpos my) r) 0 Hd)
      as (_ & _ & E); try (unfold emin, SpecFloat.emin, prec, emax; lia).
    unfold prec, emax in E. rewrite E. cbn [shr_by].
    change (2 ^ 0) with 1. rewrite Z.div_1_r, Z.add_0_r.
    apply rounded_at_most_one; [| lia].
    destruct (round_nearest_even_cases (Zpos q)
                (loc_of_shr_record (shr_record_of_loc (Zpos q)
                   (new_location (Zpos my) r)))) as [-> | ->]; lia.
  - assert (Hd : Zpos (digits2_pos q) = 53 + 1)
      by (apply digits2_pos_unique; change (53 + 1 - 1) with 53;
          change (53 + 1) with 54; lia).
    destruct (binary_round_aux_gen q (ex - ey - 53) (new_location (Zpos my) r) 1 Hd)
      as (Hm0 & _ & E); try (unfold emin, SpecFloat.emin, prec, emax; lia).
    unfold prec, emax in E. rewrite E.
    change (2 ^ 1) with 2 in *.
    assert (Hge : Zpos my <= Zpos mx) by nia.
    destruct Hle as [Hlt | [He Hm]].
    + apply rounded_at_most_one; [| lia].
      match goal with
      | |- context [round_nearest_even ?m ?l] =>
          destruct (round_nearest_even_cases m l) as [-> | ->]; lia
      end.
    + assert (Em : mx = my) by lia. subst my ey.
      assert (Eq0 : Zpos q = 2 ^ 53 /\ r = 0) by nia.
      destruct Eq0 as [Eq0 ->]. rewrite new_location_0.
      injection Eq0 as ->.
      replace (ex - ex - 53 + 1) with (-52) by lia.
      vm_compute. right. split; reflexivity.
Qed.


(** The quotient of two converted integers, the smaller over the larger. *)
Lemma double_quotient_range (S n : Z) :
  0 <= S <= n -> 0 < n <= SIZE_MAX ->
  (0 <=? double_of_size_t S / double_of_size_t n)%float = true
  /\ (double_of_size_t S / double_of_size_t n <=? 1)%float = true.
Proof.
  intros HS Hn. destruct (Z.eq_dec S 0) as [-> | Hne].
  - rewrite double_of_size_t_0, (zero_div_positive emin)
      by (now apply double_of_size_t_positive).
    split; reflexivity.
  - rewrite !FloatAxioms.leb_spec, FloatAxioms.div_spec.
    rewrite !double_of_size_t_round53 by lia.
    destruct (round53_normal S ltac:(lia)) as [HnS _].
    destruct (round53_normal n ltac:(lia)) as [Hnn _].
    pose proof (lex_of_scaled _ _ HnS Hnn (round53_mono S n ltac:(lia) ltac:(lia)))
      as Hlex.
    destruct (round53 S) as [| | | [] mx ex]; try contradiction.
    destruct (round53 n) as [| | | [] my ey]; try contradiction.
    destruct (sf_at_most_one_leb _ (SFdiv_at_most_one mx my ex ey HnS Hnn Hlex))
      as [H1 H0].
    split; assumption.
Qed.

(** ** The reference C library *)

Lemma ltb_not_eqb (x y : float) : (x <? y)%float = true -> (x =? y)%float = false.
Proof.
  rewrite FloatAxioms.ltb_spec, FloatAxioms.eqb_spec. unfold SFltb, SFeqb.
  destruct (SFcompare (Prim2SF x) (Prim2SF y)) as [[] |]; congruence.
Qed.

Lemma log_ref_nan : log_ref nan = nan.
Proof. reflexivity. Qed.

Lemma log_ref_negative x : (x <? 0)%float = true -> log_ref x = nan.
Proof.
  intros H. unfold log_ref. rewrite (ltb_not_eqb _ _ H), H. reflexivity.
Qed.

Lemma log_ref_zero x : (x =? 0)%float = true -> log_ref x = neg_infinity.
Proof. intros H. unfold log_ref. rewrite H. reflexivity. Qed.

Lemma log_ref_one : log_ref 1 = 0%float.
Proof. reflexivity. Qed.

Definition libm_ref : libm :=
  {| log := log_ref;
     log_nan := log_ref_nan;
     log_negative := log_ref_negative;
     log_zero := log_ref_zero;
     log_one := log_ref_one |}.

(** ** The estimators, case by case *)

Lemma model_total_range (MM : model) : in_size_t (model_total MM).
Proof.
  unfold model_total, MUTCOUNTS. cbn [seq fold_left]. apply size_t_wrap_range.
Qed.

Lemma model_sum_types_spec (MM : model) (types : list nat) : forall acc,
  Forall (fun i => i <> MUTCOUNTS) types ->
  model_sum_types MM (types ++ [MUTCOUNTS]) (size_t_wrap acc)
  = size_t_wrap (acc + sumZ (map (get (counts MM)) types)).
Proof.
  induction types as [| i types IH]; intros acc H.
  - cbn. now rewrite Z.add_0_r.
  - inversion H as [| ? ? Hi Ht]; subst.
    cbn [app model_sum_types map].
    destruct (Nat.eqb_spec i MUTCOUNTS) as [E | _]; [contradiction |].
    rewrite size_t_wrap_add_l, IH by assumption.
    f_equal. change (sumZ (get (counts MM) i :: map (get (counts MM)) types))
      with (get (counts MM) i + sumZ (map (get (counts MM)) types)). lia.
Qed.

Lemma model_sum_spec (MM : model) (types : list nat) :
  Forall (fun i => i <> MUTCOUNTS) types ->
  model_sum MM types = size_t_wrap (sumZ (map (get (counts MM)) types)).
Proof. exact (model_sum_types_spec MM types 0). Qed.

Lemma estimate_RAW_small (MM : model) :
  model_total MM <= 3 -> estimate_RAW MM = nan.
Proof.
  intros H. unfold estimate_RAW.
  destruct (Z.leb_spec (model_total MM) 3); [reflexivity | lia].
Qed.

Lemma estimate_RAW_large (MM : model) :
  3 < model_total MM ->
  estimate_RAW MM =
  (double_of_size_t (model_sum MM [AtoC; AtoG; AtoT; CtoG; CtoT; GtoT])
   / double_of_size_t (model_total MM))%float.
Proof.
  intros H. unfold estimate_RAW.
  destruct (Z.leb_spec (model_total MM) 3); [lia | reflexivity].
Qed.

Lemma estimate_RAW_no_change (MM : model) :
  3 < model_total MM ->
  model_sum MM [AtoC; AtoG; AtoT; CtoG; CtoT; GtoT] = 0 ->
  estimate_RAW MM = 0%float.
Proof.
  intros Hn Hs. rewrite estimate_RAW_large, Hs, double_of_size_t_0 by assumption.
  apply zero_div_positive with emin, double_of_size_t_positive.
  pose proof (model_total_range MM) as R. unfold in_size_t in R. lia.
Qed.

Lemma estimate_JC_small (c_lib : libm) (MM : model) :
  model_total MM <= 3 -> estimate_JC c_lib MM = nan.
Proof.
  intros H. unfold estimate_JC. rewrite estimate_RAW_small by assumption.
  change (1 - 4 / 3 * nan)%float with nan. rewrite log_nan. reflexivity.
Qed.

Lemma estimate_JC_of_zero (c_lib : libm) (MM : model) :
  estimate_RAW MM = 0%float -> estimate_JC c_lib MM = 0%float.
Proof.
  intros H. unfold estimate_JC. rewrite H.
  change (1 - 4 / 3 * 0)%float with 1%float. rewrite log_one. reflexivity.
Qed.

Lemma estimate_KIMURA_no_change (c_lib : libm) (MM : model) :
  0 < model_total MM ->
  model_sum MM [AtoG; CtoT] = 0 ->
  model_sum MM [AtoC; AtoT; GtoC; GtoT] = 0 ->
  estimate_KIMURA c_lib MM = 0%float.
Proof.
  intros Hn Hts Htv. unfold estimate_KIMURA.
  rewrite Hts, Htv, double_of_size_t_0.
  rewrite (zero_div_positive emin).
  - change ((1 - 2 * 0) * (1 - 2 * 0 - 0) * (1 - 2 * 0 - 0))%float with 1%float.
    rewrite log_one. reflexivity.
  - apply double_of_size_t_positive.
    pose proof (model_total_range MM) as R. unfold in_size_t in R. lia.
Qed.

(** ** Anchors on the fast path *)

Lemma land_3_mod_4 (z : Z) : Z.land z 3 = z mod 4.
Proof. change 3 with (Z.ones 2). now rewrite Z.land_ones by lia. Qed.

Lemma fast_path_counts (ref_len len : Z) :
  4 <= len <= SIZE_MAX ->
  forall MODEL subject, MODEL <> M_OTHER ->
  model_count_equal MODEL (empty_model ref_len) subject len
  = Some {| counts := [len / 4; 0; 0; 0; len / 4; 0; 0; len / 4; 0;
                       len / 4 + len mod 4];
            seq_len := ref_len |}.
Proof.
  unfold SIZE_MAX. intros H MODEL subject HM.
  assert (Hf : size_t_wrap (0 + len / 4) = len / 4).
  { apply size_t_wrap_small. unfold in_size_t, SIZE_MAX.
    Z.div_mod_to_equations. lia. }
  assert (Hr : size_t_wrap (0 + size_t_wrap (len / 4 + Z.land len 3))
               = len / 4 + len mod 4).
  { rewrite land_3_mod_4, size_t_wrap_add_r. apply size_t_wrap_small.
    unfold in_size_t, SIZE_MAX. Z.div_mod_to_equations. lia. }
  destruct MODEL; try contradiction; unfold model_count_equal, empty_model,
    empty_counts, add_at, get, AtoA, CtoC, GtoG, TtoT, MUTCOUNTS;
    cbn [repeat set nth counts seq_len]; rewrite Hf, Hr; reflexivity.
Qed.

(** C7.  On the fast path (the model is RAW, JC or KIMURA) an anchor of
    length [L >= 4] counted into an empty matrix puts [L / 4] into each of
    the four identity counters and the remainder [L mod 4] into T-T as well:
    the four add up to [L], no other counter moves, and [estimate_RAW],
    [estimate_JC] and [estimate_KIMURA] all return [+0], whatever the length
    rounds to as a [double]. *)
Theorem model_count_equal_fast_path (c_lib : libm) (MODEL : evo_model)
  (subject : list char) (L ref_len : Z) :
  MODEL <> M_OTHER -> 4 <= L <= SIZE_MAX ->
  exists MM,
    model_count_equal MODEL (empty_model ref_len) subject L = Some MM
    /\ counts MM = [L / 4; 0; 0; 0; L / 4; 0; 0; L / 4; 0; L / 4 + L mod 4]
    /\ get (counts MM) AtoA + get (counts MM) CtoC
       + get (counts MM) GtoG + get (counts MM) TtoT = L
    /\ model_total MM = L
    /\ estimate_RAW MM = 0%float
    /\ estimate_JC c_lib MM = 0%float
    /\ estimate_KIMURA c_lib MM = 0%float.
Proof.
  intros HM HL. eexists. split; [now apply fast_path_counts |].
  set (MM := {| counts := _ |}).
  assert (Hsum : L / 4 + L / 4 + L / 4 + (L / 4 + L mod 4) = L).
  { Z.div_mod_to_equations. lia. }
  assert (Ht : model_total MM = L).
  { rewrite model_total_sum by reflexivity. cbn [MM counts].
    unfold sumZ. cbn [fold_right].
    replace (L / 4 + (0 + (0 + (0 + (L / 4 + (0 + (0 + (L / 4 + (0 + (L / 4 + L mod 4 + 0)))))))))) with L by lia.
    apply size_t_wrap_small. unfold in_size_t. lia. }
  assert (Hraw : estimate_RAW MM = 0%float).
  { apply estimate_RAW_no_change; [lia | reflexivity]. }
  split; [reflexivity |]. split; [exact Hsum |]. split; [exact Ht |].
  split; [exact Hraw |]. split; [now apply estimate_JC_of_zero |].
  apply estimate_KIMURA_no_change; [lia | reflexivity | reflexivity].
Qed.

Lemma model_count_equal_fast_path_witness :
  exists MM,
    model_count_equal M_JC (empty_model 5) (chars_of_string "AACGT") 5 = Some MM
    /\ counts MM = [5 / 4; 0; 0; 0; 5 / 4; 0; 0; 5 / 4; 0; 5 / 4 + 5 mod 4]
    /\ get (counts MM) AtoA + get (counts MM) CtoC
       + get (counts MM) GtoG + get (counts MM) TtoT = 5
    /\ model_total MM = 5
    /\ estimate_RAW MM = 0%float
    /\ estimate_JC libm_ref MM = 0%float
    /\ estimate_KIMURA libm_ref MM = 0%float.
Proof.
  apply (model_count_equal_fast_path libm_ref M_JC (chars_of_string "AACGT") 5 5).
  - discriminate.
  - unfold SIZE_MAX. lia.
Defined.

(** ** The worked example *)

(** C8.  Counting subject "AACGT" against query "AACGA" into an empty matrix
    gives two A-A, one C-C, one G-G and one A-T and nothing else; the total
    is 5 and [estimate_RAW] returns the [double] 0.2. *)
Theorem model_count_AACGT (ref_len : Z) :
  exists MM,
    model_count (empty_model ref_len) (chars_of_string "AACGT")
      (chars_of_string "AACGA") 5 = Some MM
    /\ counts MM = [2; 0; 0; 1; 1; 0; 0; 1; 0; 0]
    /\ get (counts MM) AtoA = 2 /\ get (counts MM) CtoC = 1
    /\ get (counts MM) GtoG = 1 /\ get (counts MM) TtoT = 0
    /\ get (counts MM) AtoT = 1
    /\ model_sum MM [AtoC; AtoG; AtoT; CtoG; CtoT; GtoT] = 1
    /\ model_total MM = 5
    /\ estimate_RAW MM = 0.2%float.
Proof.
  eexists. split; [reflexivity |]. cbn [counts].
  repeat split; vm_compute; reflexivity.
Qed.

(** ** Small samples *)

(** With at most three classified positions [estimate_RAW] returns NaN and
    [estimate_JC] passes the NaN on; [estimate_KIMURA] returns NaN on the
    matrix with no position at all. *)
Theorem small_sample_undefined (c_lib : libm) (MM : model) :
  model_total MM <= 3 ->
  estimate_RAW MM = nan
  /\ estimate_JC c_lib MM = nan
  /\ (forall ref_len, estimate_KIMURA c_lib (empty_model ref_len) = nan).
Proof.
  intros H. split; [now apply estimate_RAW_small |].
  split; [now apply estimate_JC_small |].
  intros ref_len. unfold estimate_KIMURA.
  change (model_sum (empty_model ref_len) [AtoG; CtoT]) with 0.
  change (model_sum (empty_model ref_len) [AtoC; AtoT; GtoC; GtoT]) with 0.
  change (model_total (empty_model ref_len)) with 0.
  change (double_of_size_t 0 / double_of_size_t 0)%float with nan.
  change ((1 - 2 * nan) * (1 - 2 * nan - nan) * (1 - 2 * nan - nan))%float
    with nan.
  rewrite log_nan. reflexivity.
Qed.

Lemma small_sample_undefined_witness :
  estimate_RAW three_matches = nan
  /\ estimate_JC libm_ref three_matches = nan
  /\ (forall ref_len, estimate_KIMURA libm_ref (empty_model ref_len) = nan).
Proof.
  apply (small_sample_undefined libm_ref three_matches). vm_compute.
  discriminate.
Defined.

(** C1, at the input [estimate_KIMURA] breaks it on.  Three matching
    positions are below the threshold of [estimate_RAW]: the raw and the
    Jukes-Cantor estimates are NaN, and [estimate_KIMURA], which has no such
    test, returns 0.  On a single transversion it returns plus infinity. *)
Theorem estimate_KIMURA_unguarded (c_lib : libm) :
  model_total three_matches = 3
  /\ estimate_RAW three_matches = nan
  /\ estimate_JC c_lib three_matches = nan
  /\ estimate_KIMURA c_lib three_matches = 0%float
  /\ model_total one_transversion = 1
  /\ estimate_KIMURA c_lib one_transversion = infinity.
Proof.
  split; [reflexivity |]. split; [reflexivity |].
  split; [now apply estimate_JC_small |].
  split; [| split; [reflexivity |]].
  - unfold estimate_KIMURA.
    change (model_sum three_matches [AtoG; CtoT]) with 0.
    change (model_sum three_matches [AtoC; AtoT; GtoC; GtoT]) with 0.
    change (model_total three_matches) with 3.
    change (double_of_size_t 0 / double_of_size_t 3)%float with 0%float.
    change ((1 - 2 * 0) * (1 - 2 * 0 - 0) * (1 - 2 * 0 - 0))%float with 1%float.
    rewrite log_one. reflexivity.
  - unfold estimate_KIMURA.
    change (model_sum one_transversion [AtoG; CtoT]) with 0.
    change (model_sum one_transversion [AtoC; AtoT; GtoC; GtoT]) with 1.
    change (model_total one_transversion) with 1.
    change (double_of_size_t 0 / double_of_size_t 1)%float with 0%float.
    change (double_of_size_t 1 / double_of_size_t 1)%float with 1%float.
    change ((1 - 2 * 1) * (1 - 2 * 0 - 1) * (1 - 2 * 0 - 1))%float with (-0)%float.
    rewrite (log_zero c_lib (-0)%float) by reflexivity. reflexivity.
Qed.

(** ** Saturation *)

Lemma leb_not_eqb_ltb (x y : float) :
  (x <=? y)%float = true -> (x =? y)%float = false -> (x <? y)%float = true.
Proof.
  rewrite FloatAxioms.leb_spec, FloatAxioms.eqb_spec, FloatAxioms.ltb_spec.
  unfold SFleb, SFeqb, SFltb.
  destruct (SFcompare (Prim2SF x) (Prim2SF y)) as [[] |]; congruence.
Qed.

(** C2, as the code has it.  When the argument of the logarithm, as the code
    computes it, is not above zero, [estimate_JC] returns NaN if the argument
    is negative and plus infinity if it is a zero. *)
Theorem estimate_JC_saturated (c_lib : libm) (MM : model) :
  (1 - 4 / 3 * estimate_RAW MM <=? 0)%float = true ->
  estimate_JC c_lib MM =
  if (1 - 4 / 3 * estimate_RAW MM =? 0)%float then infinity else nan.
Proof.
  intros H. unfold estimate_JC.
  generalize dependent (1 - 4 / 3 * estimate_RAW MM)%float. intros arg H.
  destruct (arg =? 0)%float eqn:E.
  - rewrite (log_zero c_lib _ E). reflexivity.
  - rewrite (log_negative c_lib _ (leb_not_eqb_ltb _ _ H E)). reflexivity.
Qed.

Lemma estimate_JC_saturated_witness :
  estimate_JC libm_ref four_of_four =
  if (1 - 4 / 3 * estimate_RAW four_of_four =? 0)%float then infinity else nan.
Proof.
  apply (estimate_JC_saturated libm_ref four_of_four). vm_compute. reflexivity.
Defined.

(** The claim as the spec words it fails at the boundary: with three
    substitutions in four positions the raw distance is 0.75, the product
    with 4/3 rounds to 1, the logarithm is taken at 0 and the result is plus
    infinity, not a NaN. *)
Lemma estimate_JC_at_three_quarters :
  model_total three_of_four = 4
  /\ estimate_RAW three_of_four = 0.75%float
  /\ (1 - 4 / 3 * estimate_RAW three_of_four <=? 0)%float = true
  /\ (forall c_lib, estimate_JC c_lib three_of_four = infinity)
  /\ is_nan infinity = false.
Proof.
  split; [reflexivity |]. split; [reflexivity |]. split; [reflexivity |].
  split; [| reflexivity].
  intros c_lib. unfold estimate_JC.
  change (1 - 4 / 3 * estimate_RAW three_of_four)%float with 0%float.
  rewrite (log_zero c_lib 0%float) by reflexivity. reflexivity.
Qed.

(** ** The range of the raw distance *)

(** The claim of the spec fails at the upper end: when every classified
    position is a substitution the raw distance is 1. *)
Lemma estimate_RAW_reaches_one :
  model_total four_of_four = 4
  /\ estimate_RAW four_of_four = 1%float
  /\ (estimate_RAW four_of_four <? 1)%float = false.
Proof. repeat split. Qed.

Lemma six_of_ten (c0 c1 c2 c3 c4 c5 c6 c7 c8 c9 : Z) :
  Forall in_size_t [c0; c1; c2; c3; c4; c5; c6; c7; c8; c9] ->
  0 <= c1 + c2 + c3 + c5 + c6 + c8
    <= c0 + c1 + c2 + c3 + c4 + c5 + c6 + c7 + c8 + c9.
Proof.
  intros H. repeat (apply Forall_cons_iff in H; destruct H as [? H]).
  unfold in_size_t in *. lia.
Qed.

(** C4, as the code has it.  For a matrix whose counters do not overflow
    their sum: with at most three classified positions [estimate_RAW] is NaN;
    otherwise it is the binary64 quotient of [S], the six substitution
    counters added up, by the total [n], and it lies in the closed interval
    from 0 to 1, as a [double] and as the exact quotient [S / n]. *)
Theorem estimate_RAW_range (MM : model) :
  wf_model MM -> sumZ (counts MM) <= SIZE_MAX ->
  (model_total MM <= 3 ->
   estimate_RAW MM = nan /\ exact_RAW MM = None)
  /\ (3 < model_total MM ->
      let S := get (counts MM) AtoC + get (counts MM) AtoG
               + get (counts MM) AtoT + get (counts MM) CtoG
               + get (counts MM) CtoT + get (counts MM) GtoT in
      let n := sumZ (counts MM) in
      estimate_RAW MM = (double_of_size_t S / double_of_size_t n)%float
      /\ (0 <=? estimate_RAW MM)%float = true
      /\ (estimate_RAW MM <=? 1)%float = true
      /\ exact_RAW MM = Some (IZR S / IZR n)%R
      /\ 0 <= S <= n
      /\ (0 <= IZR S / IZR n <= 1)%R).
Proof.
  intros HM Hfit. pose proof HM as (Hlen & Hc & _).
  pose proof (model_total_exact MM HM Hfit) as Ht.
  split.
  - intros Hn. split; [now apply estimate_RAW_small |].
    unfold exact_RAW. destruct (Z.leb_spec (model_total MM) 3); [reflexivity | lia].
  - intros Hn S n.
    destruct (ten_cells _ Hlen) as (c0&c1&c2&c3&c4&c5&c6&c7&c8&c9&E).
    assert (HS : model_sum MM [AtoC; AtoG; AtoT; CtoG; CtoT; GtoT] = S
                 /\ 0 <= S <= n).
    { rewrite model_sum_spec by (repeat constructor; discriminate).
      subst S n. rewrite E in *. unfold get, sumZ in *.
      cbn [map nth AtoC AtoG AtoT CtoG CtoT GtoT fold_right] in *.
      pose proof (six_of_ten _ _ _ _ _ _ _ _ _ _ Hc) as H6.
      split; [| lia].
      replace (c1 + (c2 + (c3 + (c5 + (c6 + (c8 + 0))))))
        with (c1 + c2 + c3 + c5 + c6 + c8) by lia.
      apply size_t_wrap_small. unfold in_size_t. lia. }
    destruct HS as [HS HR].
    assert (Eraw : estimate_RAW MM
                   = (double_of_size_t S / double_of_size_t n)%float).
    { rewrite estimate_RAW_large by assumption. now rewrite HS, Ht. }
    assert (Hn64 : 0 < n <= SIZE_MAX) by (subst n; lia).
    destruct (double_quotient_range S n HR Hn64) as [H0 H1].
    split; [exact Eraw |]. rewrite Eraw.
    split; [exact H0 |]. split; [exact H1 |].
    split; [| split].
    + unfold exact_RAW. rewrite HS, Ht.
      destruct (Z.leb_spec (sumZ (counts MM)) 3); [lia | reflexivity].
    + exact HR.
    + assert (0 < IZR n)%R by (apply IZR_lt; subst n; lia).
      assert (0 <= IZR S)%R by (apply IZR_le; lia).
      assert (IZR S <= IZR n)%R by (apply IZR_le; lia).
      split.
      * apply Rmult_le_pos; [assumption |]. left. now apply Rinv_0_lt_compat.
      * apply Rmult_le_reg_r with (IZR n); [assumption |].
        unfold Rdiv. rewrite Rmult_assoc, Rinv_l by lra. lra.
Qed.

Lemma estimate_RAW_range_witness :
  (model_total matrix_a <= 3 ->
   estimate_RAW matrix_a = nan /\ exact_RAW matrix_a = None)
  /\ (3 < model_total matrix_a ->
      let S := get (counts matrix_a) AtoC + get (counts matrix_a) AtoG
               + get (counts matrix_a) AtoT + get (counts matrix_a) CtoG
               + get (counts matrix_a) CtoT + get (counts matrix_a) GtoT in
      let n := sumZ (counts matrix_a) in
      estimate_RAW matrix_a = (double_of_size_t S / double_of_size_t n)%float
      /\ (0 <=? estimate_RAW matrix_a)%float = true
      /\ (estimate_RAW matrix_a <=? 1)%float = true
      /\ exact_RAW matrix_a = Some (IZR S / IZR n)%R
      /\ 0 <= S <= n
      /\ (0 <= IZR S / IZR n <= 1)%R).
Proof.
  apply (estimate_RAW_range matrix_a matrix_a_wf). vm_compute. discriminate.
Defined.

(** ** The correction against the raw distance *)





(** ** Bootstrapping *)

Lemma sumZ_repeat_0 (k : nat) : sumZ (repeat 0 k) = 0.
Proof. induction k as [| k IH]; [reflexivity |]. cbn [repeat]. exact IH. Qed.

Lemma first_cell_draw_valid (r : unit) (K : nat) (N : Z) (p : list float) :
  (0 < K)%nat -> 0 <= N <= UINT_MAX ->
  length (fst (first_cell_draw r K N p)) = K /\
  Forall (fun c => 0 <= c <= UINT_MAX) (fst (first_cell_draw r K N p)) /\
  sumZ (fst (first_cell_draw r K N p)) = N.
Proof.
  intros HK HN. destruct K as [| K]; [lia |]. cbn [first_cell_draw fst].
  split; [cbn [length]; now rewrite repeat_length |]. split.
  - constructor; [exact HN |]. apply Forall_forall. intros x Hx.
    apply repeat_spec in Hx. subst x. unfold UINT_MAX. lia.
  - change (N + sumZ (repeat 0 K) = N). rewrite sumZ_repeat_0. lia.
Qed.

Definition first_cell_source : random_source :=
  {| gsl_rng := unit;
     gsl_ran_multinomial := first_cell_draw;
     draw_valid := first_cell_draw_valid |}.

(** The last loop of [model_bootstrap], cell by cell. *)
Lemma copy_cells (c n : list Z) :
  length c = MUTCOUNTS -> length n = MUTCOUNTS ->
  fold_left (fun c i => set c i (get n i)) (seq 0 MUTCOUNTS) c = n.
Proof.
  intros Hc Hn.
  destruct (ten_cells _ Hc) as (a0&a1&a2&a3&a4&a5&a6&a7&a8&a9&Ec).
  destruct (ten_cells _ Hn) as (b0&b1&b2&b3&b4&b5&b6&b7&b8&b9&En).
  rewrite Ec, En. reflexivity.
Qed.

Lemma uint_wrap_range z : 0 <= uint_wrap z <= UINT_MAX.
Proof.
  unfold uint_wrap, UINT_MAX.
  pose proof (Z.mod_pos_bound z (2 ^ 32) ltac:(lia)). lia.
Qed.

Lemma model_bootstrap_spec (src : random_source) (RNG : gsl_rng src)
  (MM : model) :
  length (counts MM) = MUTCOUNTS ->
  length (counts (fst (model_bootstrap src RNG MM))) = MUTCOUNTS
  /\ Forall (fun c => 0 <= c <= UINT_MAX)
       (counts (fst (model_bootstrap src RNG MM)))
  /\ sumZ (counts (fst (model_bootstrap src RNG MM)))
     = uint_wrap (model_total MM)
  /\ seq_len (fst (model_bootstrap src RNG MM)) = seq_len MM.
Proof.
  intros Hlen. unfold model_bootstrap.
  set (p := map _ _).
  destruct (draw_valid src RNG MUTCOUNTS (uint_wrap (model_total MM)) p)
    as (Hn & Hr & Hs); [unfold MUTCOUNTS; lia | apply uint_wrap_range |].
  destruct (gsl_ran_multinomial src RNG MUTCOUNTS (uint_wrap (model_total MM)) p)
    as [n RNG'].
  cbn [fst counts seq_len] in *.
  rewrite copy_cells by assumption. auto.
Qed.

(** C5, at the input [model_bootstrap] breaks it on.  The sample size passes
    from [size_t] to the [unsigned int] parameter of the sampler: a matrix of
    2^32 positions asks for a sample of size 0 and, whatever the valid random
    source, comes back with total 0. *)
Theorem model_bootstrap_truncates (src : random_source) (RNG : gsl_rng src) :
  wf_model two_to_32
  /\ model_total two_to_32 = 2 ^ 32
  /\ model_total (fst (model_bootstrap src RNG two_to_32)) = 0.
Proof.
  split.
  { unfold wf_model, two_to_32, in_size_t, SIZE_MAX. cbn [counts seq_len].
    split; [reflexivity |]. split; [repeat constructor; lia | lia]. }
  split; [reflexivity |].
  destruct (model_bootstrap_spec src RNG two_to_32 eq_refl) as (Hl & _ & Hs & _).
  rewrite model_total_sum, Hs by assumption. reflexivity.
Qed.

(** Below 2^32 positions the bootstrap keeps the total and the reference
    length, whatever the valid random source. *)
Theorem model_bootstrap_total (src : random_source) (RNG : gsl_rng src)
  (MM : model) :
  wf_model MM -> model_total MM <= UINT_MAX ->
  model_total (fst (model_bootstrap src RNG MM)) = model_total MM
  /\ seq_len (fst (model_bootstrap src RNG MM)) = seq_len MM
  /\ wf_model (fst (model_bootstrap src RNG MM)).
Proof.
  intros (Hlen & Hc & Hsl) Hsmall.
  destruct (model_bootstrap_spec src RNG MM Hlen) as (Hl & Hr & Hs & Hq).
  pose proof (model_total_range MM) as Ht. unfold in_size_t in Ht.
  assert (Hu : uint_wrap (model_total MM) = model_total MM).
  { unfold uint_wrap. apply Z.mod_small. unfold UINT_MAX in Hsmall. lia. }
  split; [| split; [exact Hq |]].
  - rewrite model_total_sum, Hs, Hu by assumption.
    apply size_t_wrap_small. exact Ht.
  - split; [exact Hl |]. split; [| now rewrite Hq].
    eapply Forall_impl; [| exact Hr]. unfold in_size_t, SIZE_MAX, UINT_MAX.
    intros a. cbv beta. lia.
Qed.

Lemma model_bootstrap_total_witness :
  model_total (fst (model_bootstrap first_cell_source tt matrix_a))
  = model_total matrix_a
  /\ seq_len (fst (model_bootstrap first_cell_source tt matrix_a))
     = seq_len matrix_a
  /\ wf_model (fst (model_bootstrap first_cell_source tt matrix_a)).
Proof.
  apply (model_bootstrap_total first_cell_source tt matrix_a matrix_a_wf).
  vm_compute. discriminate.
Defined.

(** ** The categories of the pairs of nucleotides *)

(** Two identical nucleotides fall into the identity counter of that
    nucleotide. *)
Theorem identical_nucleotides_counted :
  map (fun c => mutation_index c c) (chars_of_string "ACGT")
  = map Z.of_nat [AtoA; CtoC; GtoG; TtoT]
  /\ (forall ref_len,
        model_count (empty_model ref_len) (chars_of_string "ACGT")
          (chars_of_string "ACGT") 4
        = Some {| counts := [1; 0; 0; 0; 1; 0; 0; 1; 0; 1];
                  seq_len := ref_len |}).
Proof. split; reflexivity. Qed.

(** The matrix is symmetric: a pair of characters and the same pair swapped
    fall into the same counter. *)
Theorem mutation_index_symmetric (s q : char) :
  mutation_index s q = mutation_index q s.
Proof.
  unfold mutation_index.
  destruct (nucl2bit_cases s) as [Es|[Es|[Es|Es]]];
    destruct (nucl2bit_cases q) as [Eq|[Eq|[Eq|Eq]]];
    rewrite Es, Eq; reflexivity.
Qed.

(** ** The clamp *)

Lemma leb_false_ltb_false (x y : float) :
  (x <=? y)%float = false -> (x <? y)%float = false.
Proof.
  rewrite FloatAxioms.leb_spec, FloatAxioms.ltb_spec. unfold SFleb, SFltb.
  destruct (SFcompare (Prim2SF x) (Prim2SF y)) as [[] |]; congruence.
Qed.

Lemma clamp_not_negative (dist : float) :
  let r := if (dist <=? 0)%float then 0%float else dist in
  (r <? 0)%float = false /\ r <> (-0)%float.
Proof.
  cbv zeta. destruct (dist <=? 0)%float eqn:E.
  - split; [reflexivity |]. intros H.
    apply (f_equal get_sign) in H. discriminate H.
  - split; [now apply leb_false_ltb_false |].
    intros ->. discriminate E.
Qed.

(** Neither corrected estimator returns a negative number or a negative
    zero: what is not above zero comes back as [+0]. *)
Theorem estimators_not_negative (c_lib : libm) (MM : model) :
  (estimate_JC c_lib MM <? 0)%float = false
  /\ estimate_JC c_lib MM <> (-0)%float
  /\ (estimate_KIMURA c_lib MM <? 0)%float = false
  /\ estimate_KIMURA c_lib MM <> (-0)%float.
Proof.
  unfold estimate_JC, estimate_KIMURA.
  split; [apply clamp_not_negative |]. split; [apply clamp_not_negative |].
  split; apply clamp_not_negative.
Qed.

(** ** Coverage *)

(** Under the invariant of the data model, the coverage of a matrix with a
    reference is a [double] between 0 and 1. *)
Theorem model_coverage_range (MM : model) :
  wf_model MM -> covered MM -> 0 < seq_len MM ->
  (0 <=? model_coverage MM)%float = true
  /\ (model_coverage MM <=? 1)%float = true.
Proof.
  intros HM Hcov Hlen. pose proof HM as (Hl & Hc & Hs).
  unfold covered in Hcov. unfold in_size_t in Hs.
  unfold model_coverage.
  rewrite model_total_exact by (assumption || lia).
  apply double_quotient_range; [| lia].
  split; [now apply sumZ_nonneg | assumption].
Qed.

Lemma model_coverage_range_witness :
  (0 <=? model_coverage matrix_a)%float = true
  /\ (model_coverage matrix_a <=? 1)%float = true.
Proof.
  apply (model_coverage_range matrix_a matrix_a_wf).
  - vm_compute. discriminate.
  - reflexivity.
Defined.

(** ** The exact path of an anchor *)

Lemma anchor_bits (s : char) :
  (Z.land (Z.shiftr s 1) 3 = 0 /\ mutation_index s s = 0)
  \/ (Z.land (Z.shiftr s 1) 3 = 1 /\ mutation_index s s = 4)
  \/ (Z.land (Z.shiftr s 1) 3 = 2 /\ mutation_index s s = 9)
  \/ (Z.land (Z.shiftr s 1) 3 = 3 /\ mutation_index s s = 7).
Proof.
  assert (Eb : Z.land (Z.shiftr s 1) 3 = (s mod 8) / 2).
  { change 3 with (Z.ones 2). rewrite Z.land_ones, Z.shiftr_div_pow2 by lia.
    change (2 ^ 1) with 2. change (2 ^ 2) with 4.
    Z.div_mod_to_equations. lia. }
  assert (Ei : mutation_index s s = mutation_index (s mod 8) (s mod 8)).
  { unfold mutation_index, nucl2bit. now rewrite land_6_mod_8. }
  rewrite Eb, Ei.
  destruct (mod_8_cases s) as [E|[E|[E|[E|[E|[E|[E|E]]]]]]]; rewrite E;
    vm_compute; tauto.
Qed.

Lemma loops_agree (len : nat) : forall subject a c t g,
  option_map identity_cells (count_equal_loop [a; c; t; g] subject len)
  = count_loop (identity_cells [a; c; t; g]) subject subject len.
Proof.
  induction len as [| len IH]; intros subject a c t g; [reflexivity |].
  destruct subject as [| s rest]; [reflexivity |].
  cbn [count_equal_loop count_loop].
  destruct (s <? char_A); cbn [orb]; [apply IH |].
  destruct (anchor_bits s) as [[Eb Ei]|[[Eb Ei]|[[Eb Ei]|[Eb Ei]]]];
    rewrite Eb, Ei;
    [ change (Z.to_nat 0) with 0%nat
    | change (Z.to_nat 1) with 1%nat; change (Z.to_nat 4) with 4%nat
    | change (Z.to_nat 2) with 2%nat; change (Z.to_nat 9) with 9%nat
    | change (Z.to_nat 3) with 3%nat; change (Z.to_nat 7) with 7%nat ];
    unfold MUTCOUNTS; cbn [Nat.ltb Nat.leb].
  - exact (IH rest (size_t_wrap (a + 1)) c t g).
  - exact (IH rest a (size_t_wrap (c + 1)) t g).
  - exact (IH rest a c (size_t_wrap (t + 1)) g).
  - exact (IH rest a c t (size_t_wrap (g + 1))).
Qed.

(** The exact path of [model_count_equal] counts an anchor as [model_count]
    counts the anchor against itself. *)
Theorem model_count_equal_exact_path (MM : model) (subject : list char)
  (len : Z) :
  wf_model MM ->
  model_count_equal M_OTHER MM subject len
  = model_count MM subject subject len.
Proof.
  intros (Hlen & Hc & _). unfold model_count_equal, model_count.
  change empty_counts with (identity_cells [0; 0; 0; 0]).
  rewrite <- loops_agree.
  destruct (count_equal_loop [0; 0; 0; 0] subject (Z.to_nat len)) as [l |];
    [| reflexivity].
  cbn [option_map]. f_equal. f_equal.
  destruct (ten_cells _ Hlen) as (c0&c1&c2&c3&c4&c5&c6&c7&c8&c9&E).
  rewrite E in *.
  repeat (apply Forall_cons_iff in Hc; destruct Hc as [? Hc]).
  unfold identity_cells, add_at, get, AtoA, CtoC, GtoG, TtoT, MUTCOUNTS.
  cbn [seq fold_left set nth].
  rewrite !Z.add_0_r.
  rewrite (size_t_wrap_small c1), (size_t_wrap_small c2),
    (size_t_wrap_small c3), (size_t_wrap_small c5), (size_t_wrap_small c6),
    (size_t_wrap_small c8) by assumption.
  reflexivity.
Qed.

Lemma model_count_equal_exact_path_witness :
  model_count_equal M_OTHER matrix_a (chars_of_string "GATTACA") 7
  = model_count matrix_a (chars_of_string "GATTACA")
      (chars_of_string "GATTACA") 7.
Proof.
  exact (model_count_equal_exact_path matrix_a (chars_of_string "GATTACA") 7
           matrix_a_wf).
Defined.

(** ** The counters one by one *)

Lemma get_set (l : list Z) (j i : nat) (v : Z) :
  (j < length l)%nat ->
  get (set l j v) i = if (i =? j)%nat then v else get l i.
Proof.
  revert j i. induction l as [| x l IH]; intros [| j] [| i] H; cbn in H;
    try lia; try reflexivity.
  unfold get in *. cbn [set nth]. rewrite IH by lia. reflexivity.
Qed.

Lemma get_add_at (l : list Z) (j i : nat) (v : Z) :
  (j < length l)%nat ->
  get (add_at l j v) i
  = if (i =? j)%nat then size_t_wrap (get l i + v) else get l i.
Proof.
  intros H. unfold add_at. rewrite get_set by assumption.
  destruct (Nat.eqb_spec i j) as [-> | _]; reflexivity.
Qed.

Lemma get_merged (c l : list Z) (i : nat) :
  length c = MUTCOUNTS -> length l = MUTCOUNTS -> (i < MUTCOUNTS)%nat ->
  get (map size_t_wrap (map (fun ab => fst ab + snd ab) (combine c l))) i
  = size_t_wrap (get c i + get l i).
Proof.
  intros Hc Hl Hi.
  destruct (ten_cells _ Hc) as (a0&a1&a2&a3&a4&a5&a6&a7&a8&a9&Ec).
  destruct (ten_cells _ Hl) as (b0&b1&b2&b3&b4&b5&b6&b7&b8&b9&El).
  rewrite Ec, El. unfold MUTCOUNTS in Hi.
  do 10 (destruct i as [| i]; [reflexivity |]). lia.
Qed.

Lemma classified_range i subject query len :
  0 <= classified i subject query len <= informative subject query len.
Proof.
  revert subject query. induction len as [| len IH]; intros [| s ss] [| q qs];
    cbn [classified informative]; try lia.
  specialize (IH ss qs). destruct ((s <? char_A) || (q <? char_A)); [lia |].
  destruct (Z.to_nat (mutation_index s q) =? i)%nat; lia.
Qed.

Lemma count_loop_cells len : forall local subject query,
  length local = MUTCOUNTS ->
  (len <= length subject)%nat -> (len <= length query)%nat ->
  exists local',
    count_loop local subject query len = Some local' /\
    length local' = MUTCOUNTS /\
    forall i, size_t_wrap (get local' i)
              = size_t_wrap (get local i + classified i subject query len).
Proof.
  induction len as [| len IH]; intros local subject query Hl Hs Hq.
  - exists local. split; [reflexivity |]. split; [assumption |].
    intros i. destruct subject, query; cbn [classified]; now rewrite Z.add_0_r.
  - destruct subject as [| s ss]; [cbn in Hs; lia |].
    destruct query as [| q qs]; [cbn in Hq; lia |].
    cbn [length] in Hs, Hq. cbn [count_loop classified].
    destruct ((s <? char_A) || (q <? char_A)).
    + destruct (IH local ss qs) as (local' & E & Hl' & Hc); [assumption | lia | lia |].
      exists local'. split; [exact E |]. split; [exact Hl' |].
      intros i. rewrite Hc. reflexivity.
    + pose proof (mutation_index_range s q) as R.
      destruct (Nat.ltb_spec (Z.to_nat (mutation_index s q)) MUTCOUNTS)
        as [Hi | Hi]; [| unfold MUTCOUNTS in Hi; lia].
      destruct (IH (add_at local (Z.to_nat (mutation_index s q)) 1) ss qs)
        as (local' & E & Hl' & Hc);
        [now rewrite add_at_length | lia | lia |].
      exists local'. split; [exact E |]. split; [exact Hl' |].
      intros i. rewrite Hc, get_add_at by (rewrite Hl; exact Hi).
      rewrite (Nat.eqb_sym i).
      destruct (Z.to_nat (mutation_index s q) =? i)%nat.
      * rewrite size_t_wrap_add_l. f_equal. lia.
      * reflexivity.
Qed.

Lemma model_count_cells_wrap (MM : model) (subject query : list char) (len : nat) :
  length (counts MM) = MUTCOUNTS ->
  (len <= length subject)%nat -> (len <= length query)%nat ->
  exists MM',
    model_count MM subject query (Z.of_nat len) = Some MM' /\
    length (counts MM') = MUTCOUNTS /\
    seq_len MM' = seq_len MM /\
    forall i, (i < MUTCOUNTS)%nat ->
      get (counts MM') i
      = size_t_wrap (get (counts MM) i + classified i subject query len).
Proof.
  intros HM Hs Hq.
  destruct (count_loop_cells len empty_counts subject query eq_refl Hs Hq)
    as (local' & E & Hl & Hc).
  unfold model_count. rewrite Nat2Z.id, E.
  eexists. split; [reflexivity |]. cbn [counts seq_len].
  rewrite merge_counts by assumption.
  split; [rewrite !length_map, length_combine, HM, Hl; reflexivity |].
  split; [reflexivity |].
  intros i Hi. rewrite get_merged by assumption.
  rewrite <- size_t_wrap_add_r, Hc, size_t_wrap_add_r.
  f_equal. unfold MUTCOUNTS in Hi. unfold empty_counts, MUTCOUNTS, get.
  do 10 (destruct i as [| i]; [cbn; lia |]). lia.
Qed.

Lemma get_le_sumZ (l : list Z) (i : nat) :
  Forall in_size_t l -> 0 <= get l i <= sumZ l.
Proof.
  intros H. revert i. induction H as [| x l Hx Hl IH]; intros [| i];
    unfold get; cbn [nth]; change (sumZ []) with 0;
    try change (sumZ (x :: l)) with (x + sumZ l); try lia.
  - pose proof (sumZ_nonneg l Hl). unfold in_size_t in Hx. lia.
  - specialize (IH i). unfold get in IH. unfold in_size_t in Hx. lia.
Qed.

Lemma count_loop_swap len : forall local subject query,
  count_loop local subject query len = count_loop local query subject len.
Proof.
  assert (Hsym : forall s q, mutation_index s q = mutation_index q s).
  { intros s q. unfold mutation_index.
    destruct (nucl2bit_cases s) as [Es|[Es|[Es|Es]]];
      destruct (nucl2bit_cases q) as [Eq|[Eq|[Eq|Eq]]];
      rewrite Es, Eq; reflexivity. }
  induction len as [| len IH]; intros local [| s ss] [| q qs]; try reflexivity.
  cbn [count_loop]. rewrite (orb_comm (q <? char_A)), (Hsym q s).
  destruct ((s <? char_A) || (q <? char_A)); [apply IH |].
  destruct (Z.to_nat (mutation_index s q) <? MUTCOUNTS)%nat;
    [apply IH | reflexivity].
Qed.

Lemma count_loop_firstn len : forall local subject query,
  count_loop local subject query len
  = count_loop local (firstn len subject) (firstn len query) len.
Proof.
  induction len as [| len IH]; intros local [| s ss] [| q qs]; try reflexivity.
  cbn [count_loop firstn].
  destruct ((s <? char_A) || (q <? char_A)); [apply IH |].
  destruct (Z.to_nat (mutation_index s q) <? MUTCOUNTS)%nat;
    [apply IH | reflexivity].
Qed.

Lemma count_loop_app (pre_s : list char) :
  forall (pre_q : list char) local post_s post_q n,
  length pre_s = length pre_q ->
  count_loop local (pre_s ++ post_s) (pre_q ++ post_q) (length pre_s + n)
  = match count_loop local pre_s pre_q (length pre_s) with
    | Some local' => count_loop local' post_s post_q n
    | None => None
    end.
Proof.
  induction pre_s as [| a pre_s IH]; intros [| b pre_q] local post_s post_q n Hlen;
    try discriminate Hlen; [reflexivity |].
  injection Hlen as Hlen. cbn [app length Nat.add count_loop].
  destruct ((a <? char_A) || (b <? char_A)); [now apply IH |].
  destruct (Z.to_nat (mutation_index a b) <? MUTCOUNTS)%nat;
    [now apply IH | reflexivity].
Qed.

Lemma add_cells_length (a b : list Z) :
  length a = MUTCOUNTS -> length b = MUTCOUNTS ->
  length (add_cells a b) = MUTCOUNTS.
Proof.
  intros Ha Hb. unfold add_cells.
  rewrite !length_map, length_combine, Ha, Hb. reflexivity.
Qed.

Lemma add_cells_empty (a : list Z) :
  Forall in_size_t a -> length a = MUTCOUNTS ->
  add_cells a empty_counts = a /\ add_cells empty_counts a = a.
Proof.
  intros HF Ha.
  destruct (ten_cells _ Ha) as (a0&a1&a2&a3&a4&a5&a6&a7&a8&a9&E). subst a.
  repeat (apply Forall_cons_iff in HF; destruct HF as [? HF]).
  unfold add_cells, empty_counts, MUTCOUNTS.
  cbn [repeat combine map fst snd].
  rewrite !Z.add_0_r, !Z.add_0_l, !size_t_wrap_small by assumption.
  split; reflexivity.
Qed.

Lemma add_cells_add_at (a b : list Z) (i : nat) (v : Z) :
  length a = MUTCOUNTS -> length b = MUTCOUNTS -> (i < MUTCOUNTS)%nat ->
  add_at (add_cells a b) i v = add_cells a (add_at b i v).
Proof.
  intros Ha Hb Hi.
  destruct (ten_cells _ Ha) as (a0&a1&a2&a3&a4&a5&a6&a7&a8&a9&Ea).
  destruct (ten_cells _ Hb) as (b0&b1&b2&b3&b4&b5&b6&b7&b8&b9&Eb).
  subst a b. unfold MUTCOUNTS in Hi.
  do 10 (destruct i as [| i];
         [unfold add_cells, add_at, get; cbn [combine map fst snd set nth];
          rewrite size_t_wrap_add_l, size_t_wrap_add_r, Z.add_assoc;
          reflexivity |]).
  lia.
Qed.

Lemma count_loop_add_cells len : forall a b subject query,
  length a = MUTCOUNTS -> length b = MUTCOUNTS ->
  count_loop (add_cells a b) subject query len
  = option_map (add_cells a) (count_loop b subject query len).
Proof.
  induction len as [| len IH]; intros a b [| s ss] [| q qs] Ha Hb;
    try reflexivity.
  cbn [count_loop].
  destruct ((s <? char_A) || (q <? char_A)); [now apply IH |].
  destruct (Nat.ltb_spec (Z.to_nat (mutation_index s q)) MUTCOUNTS) as [Hi | _];
    [| reflexivity].
  rewrite add_cells_add_at by assumption.
  apply IH; [assumption | now rewrite add_at_length].
Qed.

Lemma count_loop_from (local : list Z) subject query len :
  Forall in_size_t local -> length local = MUTCOUNTS ->
  count_loop local subject query len
  = option_map (add_cells local) (count_loop empty_counts subject query len).
Proof.
  intros HF Hl. rewrite <- count_loop_add_cells by (assumption || reflexivity).
  now rewrite (proj1 (add_cells_empty local HF Hl)).
Qed.

Lemma add_cells_assoc (a b c : list Z) :
  add_cells (add_cells a b) c = add_cells a (add_cells b c).
Proof. apply map_wrap_add_assoc. Qed.

Lemma count_loop_kept len : forall local subject query local',
  count_loop local subject query len = Some local' ->
  length local' = length local
  /\ (Forall in_size_t local -> Forall in_size_t local').
Proof.
  induction len as [| len IH]; intros local subject query local' E.
  - injection E as <-. auto.
  - destruct subject as [| s ss]; [discriminate E |].
    destruct query as [| q qs]; [discriminate E |].
    cbn [count_loop] in E.
    destruct ((s <? char_A) || (q <? char_A)); [now apply IH in E |].
    destruct (Z.to_nat (mutation_index s q) <? MUTCOUNTS)%nat;
      [| discriminate E].
    apply IH in E. destruct E as [El EF]. rewrite add_at_length in El.
    split; [exact El |]. intros HF. apply EF, add_at_Forall, HF.
Qed.

Lemma model_count_merge (MM : model) subject query len :
  length (counts MM) = MUTCOUNTS ->
  model_count MM subject query len
  = option_map
      (fun l => {| counts := add_cells (counts MM) l; seq_len := seq_len MM |})
      (count_loop empty_counts subject query (Z.to_nat len)).
Proof.
  intros HM. unfold model_count.
  destruct (count_loop empty_counts subject query (Z.to_nat len)) as [l |] eqn:E;
    [| reflexivity].
  destruct (count_loop_kept _ _ _ _ _ E) as [Hl _].
  cbn [option_map]. rewrite merge_counts by assumption. reflexivity.
Qed.

Lemma empty_counts_in_size_t : Forall in_size_t empty_counts.
Proof. unfold in_size_t, SIZE_MAX. repeat constructor; lia. Qed.

(** ** Counting, as an operation on alignments *)

(** The two fragments of an alignment play the same part: counting the
    subject against the query and the query against the subject give the
    same matrix. *)
Theorem model_count_symmetric (MM : model) (subject query : list char)
  (len : Z) :
  model_count MM subject query len = model_count MM query subject len.
Proof. unfold model_count. now rewrite count_loop_swap. Qed.

(** [model_count] looks at the first [len] characters of each fragment and at
    nothing behind them. *)
Theorem model_count_reads_len (MM : model) (subject query : list char)
  (len : Z) :
  model_count MM subject query len
  = model_count MM (firstn (Z.to_nat len) subject)
      (firstn (Z.to_nat len) query) len.
Proof. unfold model_count. now rewrite count_loop_firstn. Qed.

(** Counting an alignment in two pieces, the second into the matrix the first
    left, gives the matrix of counting it in one go. *)
Theorem model_count_append (MM : model)
  (subject1 query1 subject2 query2 : list char) (len2 : Z) :
  length (counts MM) = MUTCOUNTS ->
  length subject1 = length query1 -> 0 <= len2 ->
  model_count MM (subject1 ++ subject2) (query1 ++ query2)
    (Z.of_nat (length subject1) + len2)
  = match model_count MM subject1 query1 (Z.of_nat (length subject1)) with
    | Some M1 => model_count M1 subject2 query2 len2
    | None => None
    end.
Proof.
  intros HM Hlen H2.
  rewrite (model_count_merge MM) by assumption.
  rewrite (model_count_merge MM subject1) by assumption.
  replace (Z.to_nat (Z.of_nat (length subject1) + len2))
    with (length subject1 + Z.to_nat len2)%nat by lia.
  rewrite Nat2Z.id, count_loop_app by assumption.
  destruct (count_loop empty_counts subject1 query1 (length subject1))
    as [l1 |] eqn:E1; [| reflexivity].
  destruct (count_loop_kept _ _ _ _ _ E1) as [Hl1 HF1].
  cbn [option_map].
  rewrite model_count_merge by (cbn [counts]; now apply add_cells_length).
  cbn [counts seq_len].
  rewrite (count_loop_from l1)
    by (auto using empty_counts_in_size_t).
  destruct (count_loop empty_counts subject2 query2 (Z.to_nat len2)) as [l2 |];
    [| reflexivity].
  cbn [option_map]. now rewrite add_cells_assoc.
Qed.

Lemma model_count_append_witness :
  model_count matrix_a (chars_of_string "ACG" ++ chars_of_string "T;A")
    (chars_of_string "AGG" ++ chars_of_string "TAC")
    (Z.of_nat (length (chars_of_string "ACG")) + 3)
  = match model_count matrix_a (chars_of_string "ACG") (chars_of_string "AGG")
            (Z.of_nat (length (chars_of_string "ACG"))) with
    | Some M1 => model_count M1 (chars_of_string "T;A") (chars_of_string "TAC") 3
    | None => None
    end.
Proof.
  apply (model_count_append matrix_a (chars_of_string "ACG")
           (chars_of_string "AGG") (chars_of_string "T;A")
           (chars_of_string "TAC") 3).
  - reflexivity.
  - reflexivity.
  - lia.
Defined.

(** Counting an alignment into a matrix adds, cell by cell, what counting it
    into an empty matrix gives: the counters are those of [model_average] of
    the matrix and the count of the alignment alone. *)
Theorem model_count_as_average (MM : model) (subject query : list char)
  (len ref_len : Z) :
  wf_model MM ->
  model_count MM subject query len
  = option_map
      (fun D => {| counts := counts (model_average MM D);
                   seq_len := seq_len MM |})
      (model_count (empty_model ref_len) subject query len).
Proof.
  intros (HM & HF & _).
  rewrite !model_count_merge by (assumption || reflexivity).
  destruct (count_loop empty_counts subject query (Z.to_nat len)) as [l |] eqn:E;
    [| reflexivity].
  destruct (count_loop_kept _ _ _ _ _ E) as [Hl _].
  cbn [option_map counts empty_model seq_len]. f_equal. f_equal.
  rewrite model_average_counts
    by (cbn [counts]; auto using add_cells_length).
  cbn [counts]. change (add_cells (counts MM) l
                        = add_cells (counts MM) (add_cells empty_counts l)).
  rewrite <- add_cells_assoc.
  now rewrite (proj1 (add_cells_empty (counts MM) HF HM)).
Qed.

Lemma model_count_as_average_witness :
  model_count matrix_a (chars_of_string "ACGT;A") (chars_of_string "AGGTAC") 6
  = option_map
      (fun D => {| counts := counts (model_average matrix_a D);
                   seq_len := seq_len matrix_a |})
      (model_count (empty_model 0) (chars_of_string "ACGT;A")
         (chars_of_string "AGGTAC") 6).
Proof.
  exact (model_count_as_average matrix_a (chars_of_string "ACGT;A")
           (chars_of_string "AGGTAC") 6 0 matrix_a_wf).
Defined.

(** Every counter grows by the number of positions of the alignment that
    fall into it: in [size_t] arithmetic, and exactly when the counters and
    the length of the alignment fit a [size_t] together.  The reference
    length stays as it was. *)
Theorem model_count_per_counter (MM : model) (subject query : list char)
  (len : Z) :
  wf_model MM -> 0 <= len ->
  len <= Z.of_nat (length subject) -> len <= Z.of_nat (length query) ->
  exists MM',
    model_count MM subject query len = Some MM'
    /\ wf_model MM'
    /\ seq_len MM' = seq_len MM
    /\ (forall i, (i < MUTCOUNTS)%nat ->
          get (counts MM') i
          = size_t_wrap (get (counts MM) i
                         + classified i subject query (Z.to_nat len)))
    /\ (sumZ (counts MM) + len <= SIZE_MAX ->
        forall i, (i < MUTCOUNTS)%nat ->
          get (counts MM') i
          = get (counts MM) i + classified i subject query (Z.to_nat len)).
Proof.
  intros (HM & HF & Hsl) Hlen Hs Hq.
  destruct (model_count_cells_wrap MM subject query (Z.to_nat len))
    as (MM' & E & Hl' & Hsl' & Hc); [exact HM | lia | lia |].
  rewrite Z2Nat.id in E by assumption.
  exists MM'. split; [exact E |].
  assert (HF' : Forall in_size_t (counts MM')).
  { rewrite (model_count_merge MM) in E by assumption.
    destruct (count_loop empty_counts subject query (Z.to_nat len)) as [l |];
      [| discriminate E].
    injection E as <-. cbn [counts]. unfold add_cells.
    apply Forall_map, Forall_forall. intros x _. apply size_t_wrap_range. }
  split; [split; [exact Hl' | split; [exact HF' | now rewrite Hsl']] |].
  split; [exact Hsl' |]. split; [exact Hc |].
  intros Hfit i Hi. rewrite Hc by assumption.
  apply size_t_wrap_small.
  pose proof (get_le_sumZ (counts MM) i HF) as Hg.
  pose proof (classified_range i subject query (Z.to_nat len)) as Hk.
  pose proof (informative_range subject query (Z.to_nat len)) as Hn.
  unfold in_size_t. lia.
Qed.

Lemma model_count_per_counter_witness :
  exists MM',
    model_count matrix_a (chars_of_string "ACGT;A") (chars_of_string "AGGTAC") 6
    = Some MM'
    /\ wf_model MM'
    /\ seq_len MM' = seq_len matrix_a
    /\ (forall i, (i < MUTCOUNTS)%nat ->
          get (counts MM') i
          = size_t_wrap (get (counts matrix_a) i
                         + classified i (chars_of_string "ACGT;A")
                             (chars_of_string "AGGTAC") (Z.to_nat 6)))
    /\ (sumZ (counts matrix_a) + 6 <= SIZE_MAX ->
        forall i, (i < MUTCOUNTS)%nat ->
          get (counts MM') i
          = get (counts matrix_a) i
            + classified i (chars_of_string "ACGT;A")
                (chars_of_string "AGGTAC") (Z.to_nat 6)).
Proof.
  apply (model_count_per_counter matrix_a (chars_of_string "ACGT;A")
           (chars_of_string "AGGTAC") 6 matrix_a_wf).
  - lia.
  - cbn. lia.
  - cbn. lia.
Defined.

(** ** What the estimators read of a matrix *)

Lemma substitutions_not_sentinel :
  Forall (fun i => i <> MUTCOUNTS) substitutions.
Proof. repeat constructor; discriminate. Qed.

Lemma model_sum_same (M1 M2 : model) (types : list nat) :
  Forall (fun i => i <> MUTCOUNTS) types ->
  (forall i, In i types -> get (counts M1) i = get (counts M2) i) ->
  model_sum M1 types = model_sum M2 types.
Proof.
  intros Hs H. rewrite !model_sum_spec by assumption.
  f_equal. f_equal. apply map_ext_in. exact H.
Qed.

Lemma estimators_same (c_lib : libm) (M1 M2 : model) :
  model_total M1 = model_total M2 ->
  (forall i, In i substitutions -> get (counts M1) i = get (counts M2) i) ->
  estimate_RAW M1 = estimate_RAW M2
  /\ estimate_JC c_lib M1 = estimate_JC c_lib M2
  /\ estimate_KIMURA c_lib M1 = estimate_KIMURA c_lib M2.
Proof.
  intros Ht Hc.
  assert (ER : estimate_RAW M1 = estimate_RAW M2).
  { unfold estimate_RAW. rewrite Ht.
    rewrite (model_sum_same M1 M2 [AtoC; AtoG; AtoT; CtoG; CtoT; GtoT]);
      [reflexivity | exact substitutions_not_sentinel | exact Hc]. }
  split; [exact ER |]. split.
  - unfold estimate_JC. now rewrite ER.
  - unfold estimate_KIMURA. rewrite Ht.
    rewrite (model_sum_same M1 M2 [AtoG; CtoT]),
      (model_sum_same M1 M2 [AtoC; AtoT; GtoC; GtoT]);
      try reflexivity; try (repeat constructor; discriminate);
      intros i Hi; apply Hc; unfold substitutions, GtoC in *;
      cbn [In] in *; tauto.
Qed.

Lemma model_sum_zero (MM : model) (types : list nat) :
  Forall (fun i => i <> MUTCOUNTS) types ->
  (forall i, In i types -> get (counts MM) i = 0) ->
  model_sum MM types = 0.
Proof.
  intros Hs H. rewrite model_sum_spec by assumption.
  replace (map (get (counts MM)) types) with (map (fun _ : nat => 0) types)
    by (apply map_ext_in; intros i Hi; now rewrite H).
  clear. induction types as [| i types IH]; [reflexivity | exact IH].
Qed.

Lemma no_substitution_estimates (c_lib : libm) (MM : model) :
  (forall i, In i substitutions -> get (counts MM) i = 0) ->
  3 < model_total MM ->
  estimate_RAW MM = 0%float
  /\ estimate_JC c_lib MM = 0%float
  /\ estimate_KIMURA c_lib MM = 0%float.
Proof.
  intros Hc Hn.
  assert (ER : estimate_RAW MM = 0%float).
  { apply estimate_RAW_no_change; [assumption |].
    apply model_sum_zero; [exact substitutions_not_sentinel | exact Hc]. }
  split; [exact ER |]. split; [now apply estimate_JC_of_zero |].
  apply estimate_KIMURA_no_change; [lia | |];
    (apply model_sum_zero; [repeat constructor; discriminate |]);
    intros i Hi; apply Hc; unfold substitutions, GtoC in *;
    cbn [In] in *; tauto.
Qed.

(** A matrix without a substitution, on at least four positions, is at
    distance 0 under the three models, however the positions spread over the
    four identity counters. *)
Theorem no_substitution_no_distance (c_lib : libm) (MM : model) :
  (forall i, In i substitutions -> get (counts MM) i = 0) ->
  3 < model_total MM ->
  estimate_RAW MM = 0%float
  /\ estimate_JC c_lib MM = 0%float
  /\ estimate_KIMURA c_lib MM = 0%float.
Proof. apply no_substitution_estimates. Qed.

Lemma no_substitution_no_distance_witness :
  estimate_RAW {| counts := [2; 0; 0; 0; 1; 0; 0; 1; 0; 1]; seq_len := 5 |}
  = 0%float
  /\ estimate_JC libm_ref
       {| counts := [2; 0; 0; 0; 1; 0; 0; 1; 0; 1]; seq_len := 5 |} = 0%float
  /\ estimate_KIMURA libm_ref
       {| counts := [2; 0; 0; 0; 1; 0; 0; 1; 0; 1]; seq_len := 5 |} = 0%float.
Proof.
  apply (no_substitution_no_distance libm_ref
           {| counts := [2; 0; 0; 0; 1; 0; 0; 1; 0; 1]; seq_len := 5 |}).
  - intros i Hi. unfold substitutions in Hi. cbn [In] in Hi.
    repeat (destruct Hi as [<- | Hi]; [reflexivity |]). contradiction.
  - vm_compute. reflexivity.
Defined.

Lemma classified_self (i : nat) (subject : list char) (len : nat) :
  In i substitutions -> classified i subject subject len = 0.
Proof.
  intros Hi. revert subject. induction len as [| len IH]; intros [| s ss];
    try reflexivity.
  cbn [classified]. rewrite IH.
  destruct ((s <? char_A) || (s <? char_A)); [reflexivity |].
  destruct (anchor_bits s) as [[_ E]|[[_ E]|[[_ E]|[_ E]]]]; rewrite E;
    unfold substitutions, AtoC, AtoG, AtoT, CtoG, CtoT, GtoT in Hi;
    cbn [In] in Hi;
    repeat (destruct Hi as [<- | Hi]; [reflexivity |]); contradiction.
Qed.

(** A fragment aligned against itself is at distance 0 under the three
    models, as soon as four of its characters are counted. *)
Theorem self_alignment_no_distance (c_lib : libm) (subject : list char)
  (len ref_len : Z) :
  0 <= len <= SIZE_MAX -> len <= Z.of_nat (length subject) ->
  3 < informative subject subject (Z.to_nat len) ->
  exists MM,
    model_count (empty_model ref_len) subject subject len = Some MM
    /\ model_total MM = informative subject subject (Z.to_nat len)
    /\ estimate_RAW MM = 0%float
    /\ estimate_JC c_lib MM = 0%float
    /\ estimate_KIMURA c_lib MM = 0%float.
Proof.
  intros Hlen Hs Hinf.
  destruct (model_count_cells_wrap (empty_model ref_len) subject subject
              (Z.to_nat len)) as (MM & E & Hl & _ & Hc);
    [reflexivity | lia | lia |].
  destruct (model_count_total (empty_model ref_len) subject subject
              (Z.to_nat len)) as (MM2 & E2 & _ & _ & Ht);
    [reflexivity | lia | lia |].
  rewrite E in E2. injection E2 as <-.
  rewrite Z2Nat.id in E by lia.
  pose proof (informative_range subject subject (Z.to_nat len)) as R.
  assert (Ht' : model_total MM = informative subject subject (Z.to_nat len)).
  { rewrite Ht. change (model_total (empty_model ref_len)) with 0.
    apply size_t_wrap_small. unfold in_size_t. lia. }
  exists MM. split; [exact E |]. split; [exact Ht' |].
  apply no_substitution_estimates; [| lia].
  intros i Hi. rewrite Hc.
  - rewrite classified_self by assumption.
    unfold substitutions, AtoC, AtoG, AtoT, CtoG, CtoT, GtoT in Hi.
    cbn [In] in Hi.
    repeat (destruct Hi as [<- | Hi]; [reflexivity |]). contradiction.
  - unfold substitutions, AtoC, AtoG, AtoT, CtoG, CtoT, GtoT, MUTCOUNTS in *.
    cbn [In] in Hi. lia.
Qed.

Lemma self_alignment_no_distance_witness :
  exists MM,
    model_count (empty_model 7) (chars_of_string "GAT;ACA")
      (chars_of_string "GAT;ACA") 7 = Some MM
    /\ model_total MM
       = informative (chars_of_string "GAT;ACA") (chars_of_string "GAT;ACA")
           (Z.to_nat 7)
    /\ estimate_RAW MM = 0%float
    /\ estimate_JC libm_ref MM = 0%float
    /\ estimate_KIMURA libm_ref MM = 0%float.
Proof.
  apply (self_alignment_no_distance libm_ref (chars_of_string "GAT;ACA") 7 7).
  - unfold SIZE_MAX. lia.
  - cbn. lia.
  - vm_compute. reflexivity.
Defined.

(** ** Anchors, on either path *)

Lemma informative_all (subject : list char) (len : nat) :
  (len <= length subject)%nat ->
  Forall (fun s => char_A <= s) (firstn len subject) ->
  informative subject subject len = Z.of_nat len.
Proof.
  revert subject. induction len as [| len IH]; intros [| s ss] Hl HF;
    cbn [length] in Hl; try lia; [reflexivity | reflexivity |].
  cbn [firstn] in HF. inversion HF as [| ? ? Hs HF']; subst.
  cbn [informative]. rewrite IH by (assumption || lia).
  destruct (Z.ltb_spec s char_A); [lia |]. cbn [orb]. lia.
Qed.

Lemma identity_counters_total (MM : model) (a c g t : Z) :
  length (counts MM) = MUTCOUNTS ->
  let MM' :=
    {| counts := add_at (add_at (add_at (add_at (counts MM) AtoA a) CtoC c)
                           GtoG g) TtoT t;
       seq_len := seq_len MM |} in
  model_total MM' = size_t_wrap (model_total MM + (a + c + g + t))
  /\ length (counts MM') = MUTCOUNTS
  /\ (forall i, In i substitutions ->
        get (counts MM') i = get (counts MM) i).
Proof.
  intros HM MM'.
  assert (Hl : length (counts MM') = MUTCOUNTS)
    by (cbn [MM' counts]; now rewrite !add_at_length).
  split; [| split; [exact Hl |]].
  - rewrite !model_total_sum by assumption. cbn [MM' counts].
    rewrite add_at_sum by (rewrite !add_at_length, HM; unfold TtoT, MUTCOUNTS; lia).
    rewrite <- size_t_wrap_add_l.
    rewrite add_at_sum by (rewrite !add_at_length, HM; unfold GtoG, MUTCOUNTS; lia).
    rewrite <- (size_t_wrap_add_l (sumZ _) g).
    rewrite add_at_sum by (rewrite !add_at_length, HM; unfold CtoC, MUTCOUNTS; lia).
    rewrite <- (size_t_wrap_add_l (sumZ _) c).
    rewrite add_at_sum by (rewrite HM; unfold AtoA, MUTCOUNTS; lia).
    unfold size_t_wrap. change (2 ^ 64) with 18446744073709551616.
    Z.div_mod_to_equations. lia.
  - intros i Hi. cbn [MM' counts].
    rewrite !get_add_at
      by (rewrite ?add_at_length, HM; unfold AtoA, CtoC, GtoG, TtoT, MUTCOUNTS; lia).
    unfold substitutions, AtoC, AtoG, AtoT, CtoG, CtoT, GtoT in Hi.
    cbn [In] in Hi.
    repeat (destruct Hi as [<- | Hi]; [reflexivity |]). contradiction.
Qed.

Lemma fast_path_total (MODEL : evo_model) (MM : model) (subject : list char)
  (len : Z) :
  MODEL <> M_OTHER -> length (counts MM) = MUTCOUNTS -> 0 <= len ->
  exists MM',
    model_count_equal MODEL MM subject len = Some MM'
    /\ seq_len MM' = seq_len MM
    /\ length (counts MM') = MUTCOUNTS
    /\ model_total MM' = size_t_wrap (model_total MM + len)
    /\ (forall i, In i substitutions ->
          get (counts MM') i = get (counts MM) i).
Proof.
  intros HMODEL HM Hlen.
  destruct (identity_counters_total MM (len / 4) (len / 4) (len / 4)
              (size_t_wrap (len / 4 + Z.land len 3)) HM) as (Ht & Hl & Hc).
  eexists. split; [destruct MODEL; try contradiction; reflexivity |].
  split; [reflexivity |]. split; [exact Hl |]. split; [| exact Hc].
  rewrite Ht, land_3_mod_4. generalize (model_total MM). intros T.
  unfold size_t_wrap. change (2 ^ 64) with 18446744073709551616.
  Z.div_mod_to_equations. lia.
Qed.

Lemma exact_path_total (MM : model) (subject : list char) (len : nat) :
  length (counts MM) = MUTCOUNTS -> (len <= length subject)%nat ->
  exists MM',
    model_count_equal M_OTHER MM subject (Z.of_nat len) = Some MM'
    /\ seq_len MM' = seq_len MM
    /\ length (counts MM') = MUTCOUNTS
    /\ model_total MM'
       = size_t_wrap (model_total MM + informative subject subject len)
    /\ (forall i, In i substitutions ->
          get (counts MM') i = get (counts MM) i).
Proof.
  intros HM Hs.
  destruct (count_loop_total len empty_counts subject subject eq_refl Hs Hs)
    as (l10 & E10 & _ & _ & Hsum).
  pose proof (loops_agree len subject 0 0 0 0) as Hag.
  change (identity_cells [0; 0; 0; 0]) with empty_counts in Hag.
  rewrite E10 in Hag. unfold model_count_equal. rewrite Nat2Z.id.
  destruct (count_equal_loop [0; 0; 0; 0] subject len) as [l4 |];
    [| discriminate Hag].
  injection Hag as Hag.
  destruct (identity_counters_total MM (get l4 0) (get l4 1) (get l4 3)
              (get l4 2) HM) as (Ht & Hl & Hc).
  eexists. split; [reflexivity |]. split; [reflexivity |].
  split; [exact Hl |]. split; [| exact Hc].
  rewrite Ht, <- size_t_wrap_add_r.
  replace (get l4 0 + get l4 1 + get l4 3 + get l4 2) with (sumZ l10)
    by (rewrite <- Hag; unfold identity_cells, sumZ; cbn [fold_right]; lia).
  rewrite Hsum, size_t_wrap_add_r. reflexivity.
Qed.

(** An anchor counted on the fast path adds its length to the total, the
    one counted character by character adds the number of its characters
    that are at least ['A']; neither touches a substitution counter or the
    reference length.  On an anchor without a character below ['A'] the two
    matrices have the same total and the three estimators cannot tell them
    apart. *)
Theorem anchor_paths_agree (c_lib : libm) (MODEL : evo_model) (MM : model)
  (subject : list char) (len : Z) :
  MODEL <> M_OTHER -> wf_model MM ->
  0 <= len -> len <= Z.of_nat (length subject) ->
  exists Mf Me,
    model_count_equal MODEL MM subject len = Some Mf
    /\ model_count_equal M_OTHER MM subject len = Some Me
    /\ seq_len Mf = seq_len MM /\ seq_len Me = seq_len MM
    /\ model_total Mf = size_t_wrap (model_total MM + len)
    /\ model_total Me
       = size_t_wrap (model_total MM
                      + informative subject subject (Z.to_nat len))
    /\ (forall i, In i substitutions ->
          get (counts Mf) i = get (counts MM) i
          /\ get (counts Me) i = get (counts MM) i)
    /\ (Forall (fun s => char_A <= s) (firstn (Z.to_nat len) subject) ->
        model_total Mf = model_total Me
        /\ estimate_RAW Mf = estimate_RAW Me
        /\ estimate_JC c_lib Mf = estimate_JC c_lib Me
        /\ estimate_KIMURA c_lib Mf = estimate_KIMURA c_lib Me).
Proof.
  intros HMODEL (HM & _ & _) Hlen Hs.
  destruct (fast_path_total MODEL MM subject len HMODEL HM Hlen)
    as (Mf & Ef & Hsf & _ & Htf & Hcf).
  destruct (exact_path_total MM subject (Z.to_nat len) HM ltac:(lia))
    as (Me & Ee & Hse & _ & Hte & Hce).
  rewrite Z2Nat.id in Ee by assumption.
  exists Mf, Me. repeat (split; [assumption |]).
  split; [intros i Hi; split; auto |].
  intros Hall.
  assert (Et : model_total Mf = model_total Me).
  { rewrite Htf, Hte, informative_all by (assumption || lia).
    now rewrite Z2Nat.id. }
  split; [exact Et |].
  apply estimators_same; [exact Et |].
  intros i Hi. now rewrite Hcf, Hce.
Qed.

Lemma anchor_paths_agree_witness :
  exists Mf Me,
    model_count_equal M_JC matrix_a (chars_of_string "GATTACA") 7 = Some Mf
    /\ model_count_equal M_OTHER matrix_a (chars_of_string "GATTACA") 7
       = Some Me
    /\ seq_len Mf = seq_len matrix_a /\ seq_len Me = seq_len matrix_a
    /\ model_total Mf = size_t_wrap (model_total matrix_a + 7)
    /\ model_total Me
       = size_t_wrap (model_total matrix_a
                      + informative (chars_of_string "GATTACA")
                          (chars_of_string "GATTACA") (Z.to_nat 7))
    /\ (forall i, In i substitutions ->
          get (counts Mf) i = get (counts matrix_a) i
          /\ get (counts Me) i = get (counts matrix_a) i)
    /\ (Forall (fun s => char_A <= s)
          (firstn (Z.to_nat 7) (chars_of_string "GATTACA")) ->
        model_total Mf = model_total Me
        /\ estimate_RAW Mf = estimate_RAW Me
        /\ estimate_JC libm_ref Mf = estimate_JC libm_ref Me
        /\ estimate_KIMURA libm_ref Mf = estimate_KIMURA libm_ref Me).
Proof.
  apply (anchor_paths_agree libm_ref M_JC matrix_a
           (chars_of_string "GATTACA") 7).
  - discriminate.
  - exact matrix_a_wf.
  - lia.
  - cbn. lia.
Defined.

(** ** The sign of the raw distance *)

Lemma sf_at_most_one_positive (x : spec_float) :
  sf_at_most_one x -> SFltb (Prim2SF 0) x = true /\ SFeqb x (Prim2SF 0) = false.
Proof.
  change (Prim2SF 0) with (S754_zero false).
  destruct x as [| | | [] m e]; try contradiction. split; reflexivity.
Qed.

Lemma double_quotient_positive (S n : Z) :
  0 < S <= n -> n <= SIZE_MAX ->
  (0 <? double_of_size_t S / double_of_size_t n)%float = true
  /\ (double_of_size_t S / double_of_size_t n =? 0)%float = false.
Proof.
  intros HS Hn.
  rewrite FloatAxioms.ltb_spec, FloatAxioms.eqb_spec, FloatAxioms.div_spec.
  rewrite !double_of_size_t_round53 by lia.
  destruct (round53_normal S ltac:(lia)) as [HnS _].
  destruct (round53_normal n ltac:(lia)) as [Hnn _].
  pose proof (lex_of_scaled _ _ HnS Hnn (round53_mono S n ltac:(lia) ltac:(lia)))
    as Hlex.
  destruct (round53 S) as [| | | [] mx ex]; try contradiction.
  destruct (round53 n) as [| | | [] my ey]; try contradiction.
  exact (sf_at_most_one_positive _
           (SFdiv_at_most_one mx my ex ey HnS Hnn Hlex)).
Qed.

Lemma sums_of_types (MM : model) :
  wf_model MM -> sumZ (counts MM) <= SIZE_MAX ->
  0 <= model_sum MM [AtoG; CtoT]
  /\ 0 <= model_sum MM [AtoC; AtoT; GtoC; GtoT]
  /\ model_sum MM [AtoG; CtoT] + model_sum MM [AtoC; AtoT; GtoC; GtoT]
     = model_sum MM [AtoC; AtoG; AtoT; CtoG; CtoT; GtoT]
  /\ model_sum MM [AtoC; AtoG; AtoT; CtoG; CtoT; GtoT] <= model_total MM.
Proof.
  intros HM Hfit. pose proof HM as (Hlen & Hc & _).
  rewrite (model_total_exact MM HM Hfit).
  rewrite !model_sum_spec by (repeat constructor; discriminate).
  destruct (ten_cells _ Hlen) as (c0&c1&c2&c3&c4&c5&c6&c7&c8&c9&E).
  rewrite E in *. unfold get, sumZ in *.
  cbn [map nth AtoC AtoG AtoT CtoG GtoC CtoT GtoT fold_right] in *.
  repeat (apply Forall_cons_iff in Hc; destruct Hc as [? Hc]).
  unfold in_size_t in *.
  rewrite !size_t_wrap_small by (unfold in_size_t; lia). lia.
Qed.

(** Away from the small samples the raw distance is 0 exactly when the
    matrix holds no substitution: one substitution is never rounded away,
    however long the alignment. *)
Theorem estimate_RAW_zero_iff (MM : model) :
  wf_model MM -> sumZ (counts MM) <= SIZE_MAX -> 3 < model_total MM ->
  (estimate_RAW MM =? 0)%float
  = (model_sum MM [AtoC; AtoG; AtoT; CtoG; CtoT; GtoT] =? 0)
  /\ (0 < model_sum MM [AtoC; AtoG; AtoT; CtoG; CtoT; GtoT] ->
      (0 <? estimate_RAW MM)%float = true).
Proof.
  intros HM Hfit Hn.
  destruct (sums_of_types MM HM Hfit) as (H1 & H2 & H3 & H4).
  pose proof (model_total_range MM) as Ht. unfold in_size_t in Ht.
  rewrite estimate_RAW_large by assumption.
  destruct (Z.eqb_spec (model_sum MM [AtoC; AtoG; AtoT; CtoG; CtoT; GtoT]) 0)
    as [E | Hne].
  - rewrite E, double_of_size_t_0, (zero_div_positive emin)
      by (apply double_of_size_t_positive; lia).
    split; [reflexivity | lia].
  - destruct (double_quotient_positive
                (model_sum MM [AtoC; AtoG; AtoT; CtoG; CtoT; GtoT])
                (model_total MM)) as [Hp Hz]; try lia.
    split; [exact Hz | intros _; exact Hp].
Qed.

Lemma estimate_RAW_zero_iff_witness :
  (estimate_RAW one_in_2_60 =? 0)%float
  = (model_sum one_in_2_60 [AtoC; AtoG; AtoT; CtoG; CtoT; GtoT] =? 0)
  /\ (0 < model_sum one_in_2_60 [AtoC; AtoG; AtoT; CtoG; CtoT; GtoT] ->
      (0 <? estimate_RAW one_in_2_60)%float = true).
Proof.
  apply (estimate_RAW_zero_iff one_in_2_60).
  - unfold wf_model, in_size_t, SIZE_MAX. cbn.
    repeat split; repeat constructor; lia.
  - vm_compute. discriminate.
  - vm_compute. reflexivity.
Defined.

(** ** The two rates of the Kimura model *)



(** ** Coverage without a reference *)

Lemma positive_div_zero (lo : Z) (x : float) :
  sf_positive lo (Prim2SF x) -> (x / 0)%float = infinity.
Proof.
  intros H. apply Prim2SF_inj. rewrite FloatAxioms.div_spec.
  change (Prim2SF 0) with (S754_zero false).
  destruct (Prim2SF x) as [| [] | | [] m e]; cbn in H; try contradiction;
    reflexivity.
Qed.

(** [model_coverage] divides without a test: on a reference of length 0 it
    returns NaN for a matrix without a position and plus infinity for any
    other. *)
Theorem model_coverage_no_reference (MM : model) :
  seq_len MM = 0 ->
  model_coverage MM = if model_total MM =? 0 then nan else infinity.
Proof.
  intros Hs. unfold model_coverage. rewrite Hs, double_of_size_t_0.
  pose proof (model_total_range MM) as Ht. unfold in_size_t in Ht.
  destruct (Z.eqb_spec (model_total MM) 0) as [-> | Hne]; [reflexivity |].
  apply positive_div_zero with emin, double_of_size_t_positive. lia.
Qed.

Lemma model_coverage_no_reference_witness :
  model_coverage {| counts := counts matrix_a; seq_len := 0 |}
  = if model_total {| counts := counts matrix_a; seq_len := 0 |} =? 0
    then nan else infinity.
Proof.
  apply (model_coverage_no_reference
           {| counts := counts matrix_a; seq_len := 0 |}).
  reflexivity.
Defined.

(** ** The ten categories *)

(** Two pairs of characters share a counter exactly when they hold the same
    two codes, in either order: the ten counters keep the ten unordered pairs
    of nucleotides apart. *)
Theorem mutation_index_separates (s q s' q' : char) :
  mutation_index s q = mutation_index s' q' <->
  (nucl2bit s = nucl2bit s' /\ nucl2bit q = nucl2bit q')
  \/ (nucl2bit s = nucl2bit q' /\ nucl2bit q = nucl2bit s').
Proof.
  unfold mutation_index.
  destruct (nucl2bit_cases s) as [Es|[Es|[Es|Es]]];
    destruct (nucl2bit_cases q) as [Eq|[Eq|[Eq|Eq]]];
    destruct (nucl2bit_cases s') as [Es'|[Es'|[Es'|Es']]];
    destruct (nucl2bit_cases q') as [Eq'|[Eq'|[Eq'|Eq']]];
    rewrite Es, Eq, Es', Eq'; vm_compute;
    (split; [intros H; try discriminate H; tauto
            | intros [[H1 H2] | [H1 H2]];
              try discriminate H1; try discriminate H2; reflexivity]).
Qed.

(** ** Lower-case letters *)

Lemma land_32 (c : Z) : Z.land c 32 = 0 \/ Z.land c 32 = 32.
Proof.
  destruct (Z.testbit c 5) eqn:E; [right | left]; apply Z.bits_inj'; intros n Hn;
    rewrite Z.land_spec; change 32 with (2 ^ 5);
    rewrite Z.pow2_bits_eqb by lia;
    destruct (Z.eqb_spec 5 n) as [<- | Hne];
    rewrite ?E, ?andb_false_r, ?Z.bits_0; reflexivity.
Qed.

Lemma lower_case_ge (c : char) : c <= lower_case c.
Proof.
  unfold lower_case. pose proof (Z.add_lor_land c 32).
  destruct (land_32 c); lia.
Qed.

Lemma nucl2bit_lower_case (c : char) : nucl2bit (lower_case c) = nucl2bit c.
Proof.
  unfold nucl2bit, lower_case. rewrite Z.land_lor_distr_l.
  change (Z.land 32 6) with 0. now rewrite Z.lor_0_r.
Qed.

Lemma count_loop_lower_case len : forall local subject query,
  Forall (fun c => char_A <= c) subject ->
  Forall (fun c => char_A <= c) query ->
  count_loop local (map lower_case subject) (map lower_case query) len
  = count_loop local subject query len.
Proof.
  induction len as [| len IH]; intros local [| s ss] [| q qs] Hs Hq;
    try reflexivity.
  inversion Hs as [| ? ? Hs1 Hs2]; inversion Hq as [| ? ? Hq1 Hq2]; subst.
  cbn [map count_loop].
  pose proof (lower_case_ge s). pose proof (lower_case_ge q).
  destruct (Z.ltb_spec (lower_case s) char_A); [lia |].
  destruct (Z.ltb_spec (lower_case q) char_A); [lia |].
  destruct (Z.ltb_spec s char_A); [lia |].
  destruct (Z.ltb_spec q char_A); [lia |]. cbn [orb].
  unfold mutation_index. rewrite !nucl2bit_lower_case.
  fold (mutation_index s q).
  destruct (Z.to_nat (mutation_index s q) <? MUTCOUNTS)%nat;
    [now apply IH | reflexivity].
Qed.

(** [model_count] reads bits 1 and 2 of a character and not its case: two
    fragments of characters that are at least ['A'] count the same in lower
    case as they do as given. *)
Theorem model_count_lower_case (MM : model) (subject query : list char)
  (len : Z) :
  Forall (fun c => char_A <= c) subject ->
  Forall (fun c => char_A <= c) query ->
  model_count MM (map lower_case subject) (map lower_case query) len
  = model_count MM subject query len.
Proof.
  intros Hs Hq. unfold model_count. now rewrite count_loop_lower_case.
Qed.

Lemma model_count_lower_case_witness :
  model_count matrix_a (map lower_case (chars_of_string "GATTACA"))
    (map lower_case (chars_of_string "GCTTANA")) 7
  = model_count matrix_a (chars_of_string "GATTACA")
      (chars_of_string "GCTTANA") 7.
Proof.
  apply (model_count_lower_case matrix_a (chars_of_string "GATTACA")
           (chars_of_string "GCTTANA") 7).
  - repeat constructor; vm_compute; discriminate.
  - repeat constructor; vm_compute; discriminate.
Defined.

(** ** The empty matrix *)

(** The matrix with all counters zero and no reference is neutral for
    [model_average], on either side. *)
Theorem model_average_empty (A : model) :
  wf_model A ->
  model_average A (empty_model 0) = A /\ model_average (empty_model 0) A = A.
Proof.
  intros (HA & HF & Hs). destruct A as [c l]. cbn [counts seq_len] in *.
  pose proof (model_average_counts {| counts := c; seq_len := l |}
                (empty_model 0) HA eq_refl) as E1.
  pose proof (model_average_counts (empty_model 0)
                {| counts := c; seq_len := l |} eq_refl HA) as E2.
  cbn [counts empty_model] in E1, E2.
  destruct (add_cells_empty c HF HA) as [A1 A2]. unfold add_cells in A1, A2.
  rewrite A1 in E1. rewrite A2 in E2.
  unfold model_average in *. cbn [counts seq_len empty_model] in *.
  rewrite E1, E2, Z.add_0_r, Z.add_0_l, size_t_wrap_small by assumption.
  split; reflexivity.
Qed.

Lemma model_average_empty_witness :
  model_average matrix_a (empty_model 0) = matrix_a
  /\ model_average (empty_model 0) matrix_a = matrix_a.
Proof. exact (model_average_empty matrix_a matrix_a_wf). Defined.

(** ** Pooling two matrices *)

Lemma get_average (A B : model) (i : nat) :
  length (counts A) = MUTCOUNTS -> length (counts B) = MUTCOUNTS ->
  (i < MUTCOUNTS)%nat ->
  get (counts (model_average A B)) i
  = size_t_wrap (get (counts A) i + get (counts B) i).
Proof.
  intros HA HB Hi. rewrite model_average_counts by assumption.
  now apply get_merged.
Qed.

Lemma substitutions_exact (MM : model) :
  wf_model MM -> sumZ (counts MM) <= SIZE_MAX ->
  model_sum MM [AtoC; AtoG; AtoT; CtoG; CtoT; GtoT]
  = sumZ (map (get (counts MM)) substitutions)
  /\ 0 <= sumZ (map (get (counts MM)) substitutions) <= sumZ (counts MM).
Proof.
  intros (Hlen & Hc & _) Hfit.
  rewrite model_sum_spec by exact substitutions_not_sentinel.
  destruct (ten_cells _ Hlen) as (c0&c1&c2&c3&c4&c5&c6&c7&c8&c9&E).
  rewrite E in *. unfold get, sumZ, substitutions in *.
  cbn [map nth AtoC AtoG AtoT CtoG CtoT GtoT fold_right] in *.
  repeat (apply Forall_cons_iff in Hc; destruct Hc as [? Hc]).
  unfold in_size_t in *.
  rewrite size_t_wrap_small by (unfold in_size_t; lia). lia.
Qed.

Lemma mediant (a b c d : R) :
  (0 < b -> 0 < d -> a / b <= c / d ->
   a / b <= (a + c) / (b + d) <= c / d)%R.
Proof.
  intros Hb Hd H.
  assert (Hbd : (0 < b + d)%R) by lra.
  assert (Hx : (a * d <= c * b)%R).
  { apply (Rmult_le_compat_r (b * d)) in H; [| nra].
    unfold Rdiv in H.
    replace (a * / b * (b * d))%R with (a * d * (b * / b))%R in H by ring.
    replace (c * / d * (b * d))%R with (c * b * (d * / d))%R in H by ring.
    rewrite !Rinv_r in H by lra. lra. }
  split.
  - apply (Rmult_le_reg_r (b * (b + d))); [nra |].
    unfold Rdiv.
    replace (a * / b * (b * (b + d)))%R with (a * (b + d) * (b * / b))%R by ring.
    replace ((a + c) * / (b + d) * (b * (b + d)))%R
      with ((a + c) * b * ((b + d) * / (b + d)))%R by ring.
    rewrite !Rinv_r by lra. lra.
  - apply (Rmult_le_reg_r (d * (b + d))); [nra |].
    unfold Rdiv.
    replace (c * / d * (d * (b + d)))%R with (c * (b + d) * (d * / d))%R by ring.
    replace ((a + c) * / (b + d) * (d * (b + d)))%R
      with ((a + c) * d * ((b + d) * / (b + d)))%R by ring.
    rewrite !Rinv_r by lra. lra.
Qed.

Lemma exact_RAW_value (MM : model) (d : R) :
  wf_model MM -> sumZ (counts MM) <= SIZE_MAX ->
  exact_RAW MM = Some d ->
  3 < sumZ (counts MM)
  /\ d = (IZR (sumZ (map (get (counts MM)) substitutions))
          / IZR (sumZ (counts MM)))%R.
Proof.
  intros HM Hfit. unfold exact_RAW.
  rewrite (proj1 (substitutions_exact MM HM Hfit)),
    (model_total_exact MM HM Hfit).
  destruct (Z.leb_spec (sumZ (counts MM)) 3); intros E; [discriminate E |].
  injection E as <-. split; [assumption | reflexivity].
Qed.

Lemma average_substitutions (A B : model) :
  wf_model A -> wf_model B ->
  sumZ (counts A) + sumZ (counts B) <= SIZE_MAX ->
  model_total (model_average A B) = sumZ (counts A) + sumZ (counts B)
  /\ model_sum (model_average A B) [AtoC; AtoG; AtoT; CtoG; CtoT; GtoT]
     = sumZ (map (get (counts A)) substitutions)
       + sumZ (map (get (counts B)) substitutions).
Proof.
  intros HA HB Hfit.
  pose proof HA as (HlA & HcA & _). pose proof HB as (HlB & HcB & _).
  pose proof (sumZ_nonneg _ HcA) as HnA. pose proof (sumZ_nonneg _ HcB) as HnB.
  split.
  - rewrite model_average_total by assumption.
    rewrite !model_total_exact by (assumption || lia).
    apply size_t_wrap_small. unfold in_size_t. lia.
  - rewrite model_sum_spec by exact substitutions_not_sentinel.
    rewrite model_average_counts by assumption.
    destruct (ten_cells _ HlA) as (a0&a1&a2&a3&a4&a5&a6&a7&a8&a9&EA).
    destruct (ten_cells _ HlB) as (b0&b1&b2&b3&b4&b5&b6&b7&b8&b9&EB).
    rewrite EA, EB in *. unfold get, sumZ, substitutions in *.
    cbn [combine map fst snd nth AtoC AtoG AtoT CtoG CtoT GtoT fold_right] in *.
    repeat (apply Forall_cons_iff in HcA; destruct HcA as [? HcA]).
    repeat (apply Forall_cons_iff in HcB; destruct HcB as [? HcB]).
    unfold in_size_t in *.
    rewrite (size_t_wrap_small (a1 + b1)), (size_t_wrap_small (a2 + b2)),
      (size_t_wrap_small (a3 + b3)), (size_t_wrap_small (a5 + b5)),
      (size_t_wrap_small (a6 + b6)), (size_t_wrap_small (a8 + b8))
      by (unfold in_size_t; lia).
    rewrite size_t_wrap_small by (unfold in_size_t; lia). lia.
Qed.

(** In exact arithmetic the raw distance of the sum of two matrices lies
    between the raw distances of the two, when both are defined and the
    counters of the two fit a [size_t] together. *)
Theorem exact_RAW_average_between (A B : model) (a b : R) :
  wf_model A -> wf_model B ->
  sumZ (counts A) + sumZ (counts B) <= SIZE_MAX ->
  exact_RAW A = Some a -> exact_RAW B = Some b ->
  exists m,
    exact_RAW (model_average A B) = Some m
    /\ (Rmin a b <= m <= Rmax a b)%R.
Proof.
  intros HA HB Hfit Ea Eb.
  pose proof HA as (_ & HcA & _). pose proof HB as (_ & HcB & _).
  pose proof (sumZ_nonneg _ HcA) as HnA. pose proof (sumZ_nonneg _ HcB) as HnB.
  destruct (exact_RAW_value A a HA ltac:(lia) Ea) as [HtA ->].
  destruct (exact_RAW_value B b HB ltac:(lia) Eb) as [HtB ->].
  destruct (average_substitutions A B HA HB Hfit) as [Et Es].
  revert HtA HtB Et Es.
  generalize (sumZ (map (get (counts A)) substitutions)).
  generalize (sumZ (map (get (counts B)) substitutions)).
  generalize (sumZ (counts A)). generalize (sumZ (counts B)).
  intros nB nA SB SA HtA HtB Et Es.
  exists (IZR (SA + SB) / IZR (nA + nB))%R. split.
  - unfold exact_RAW. rewrite Et, Es.
    destruct (Z.leb_spec (nA + nB) 3); [lia | reflexivity].
  - rewrite !plus_IZR.
    assert (HpA : (0 < IZR nA)%R) by (apply IZR_lt; lia).
    assert (HpB : (0 < IZR nB)%R) by (apply IZR_lt; lia).
    destruct (Rle_dec (IZR SA / IZR nA) (IZR SB / IZR nB)) as [Hle | Hgt].
    + rewrite Rmin_left, Rmax_right by assumption.
      now apply mediant.
    + assert (Hle : (IZR SB / IZR nB <= IZR SA / IZR nA)%R) by lra.
      rewrite Rmin_right, Rmax_left by assumption.
      rewrite (Rplus_comm (IZR SA)), (Rplus_comm (IZR nA)).
      now apply mediant.
Qed.

Lemma exact_RAW_average_between_witness :
  exists m,
    exact_RAW (model_average matrix_a matrix_b) = Some m
    /\ (Rmin (IZR 2 / IZR 16) (IZR 6 / IZR 9) <= m
        <= Rmax (IZR 2 / IZR 16) (IZR 6 / IZR 9))%R.
Proof.
  apply (exact_RAW_average_between matrix_a matrix_b).
  - exact matrix_a_wf.
  - exact matrix_b_wf.
  - vm_compute. discriminate.
  - reflexivity.
  - reflexivity.
Defined.

(** ** What the sampler is handed *)

(** [model_bootstrap] hands the sampler ten probabilities and the total
    reduced to an [unsigned int], and returns the ten drawn counts under the
    reference length of its argument.  The probabilities are [double]s
    between 0 and 1 for a matrix with a position, and ten NaNs, from
    dividing 0 by 0, for a matrix without. *)
Theorem model_bootstrap_sampler_input (src : random_source)
  (RNG : gsl_rng src) (MM : model) :
  wf_model MM -> sumZ (counts MM) <= SIZE_MAX ->
  exists p,
    length p = MUTCOUNTS
    /\ model_bootstrap src RNG MM
       = ({| counts :=
               fst (gsl_ran_multinomial src RNG MUTCOUNTS
                      (uint_wrap (model_total MM)) p);
             seq_len := seq_len MM |},
          snd (gsl_ran_multinomial src RNG MUTCOUNTS
                 (uint_wrap (model_total MM)) p))
    /\ (0 < model_total MM ->
        Forall (fun x => (0 <=? x)%float = true /\ (x <=? 1)%float = true) p)
    /\ (model_total MM = 0 -> Forall (fun x => is_nan x = true) p).
Proof.
  intros HM Hfit. pose proof HM as (Hlen & Hc & _).
  pose proof (model_total_exact MM HM Hfit) as Ht.
  exists (map (fun i => (double_of_size_t (get (counts MM) i)
                         / double_of_size_t (model_total MM))%float)
            (seq 0 MUTCOUNTS)).
  split; [now rewrite length_map, length_seq |]. split.
  - unfold model_bootstrap.
    set (p := map _ _).
    destruct (draw_valid src RNG MUTCOUNTS (uint_wrap (model_total MM)) p)
      as (Hn & _ & _); [unfold MUTCOUNTS; lia | apply uint_wrap_range |].
    destruct (gsl_ran_multinomial src RNG MUTCOUNTS
                (uint_wrap (model_total MM)) p) as [n RNG'].
    cbn [fst snd] in *. now rewrite copy_cells.
  - split.
    + intros Hpos. apply Forall_forall. intros x Hx.
      apply in_map_iff in Hx. destruct Hx as (i & <- & _).
      pose proof (get_le_sumZ (counts MM) i Hc) as Hg.
      apply double_quotient_range; lia.
    + intros H0. apply Forall_forall. intros x Hx.
      apply in_map_iff in Hx. destruct Hx as (i & <- & _).
      pose proof (get_le_sumZ (counts MM) i Hc) as Hg.
      replace (get (counts MM) i) with 0 by lia. rewrite H0. reflexivity.
Qed.

Lemma model_bootstrap_sampler_input_witness :
  exists p,
    length p = MUTCOUNTS
    /\ model_bootstrap first_cell_source tt matrix_a
       = ({| counts :=
               fst (gsl_ran_multinomial first_cell_source tt MUTCOUNTS
                      (uint_wrap (model_total matrix_a)) p);
             seq_len := seq_len matrix_a |},
          snd (gsl_ran_multinomial first_cell_source tt MUTCOUNTS
                 (uint_wrap (model_total matrix_a)) p))
    /\ (0 < model_total matrix_a ->
        Forall (fun x => (0 <=? x)%float = true /\ (x <=? 1)%float = true) p)
    /\ (model_total matrix_a = 0 -> Forall (fun x => is_nan x = true) p).
Proof.
  apply (model_bootstrap_sampler_input first_cell_source tt matrix_a
           matrix_a_wf).
  vm_compute. discriminate.
Defined.

(** ** The invariant of the data model *)

(** The sum of two matrices that each stay within their reference stays
    within the sum of the references, as long as that sum is a [size_t]. *)
Theorem model_average_covered (A B : model) :
  wf_model A -> wf_model B -> covered A -> covered B ->
  seq_len A + seq_len B <= SIZE_MAX ->
  wf_model (model_average A B) /\ covered (model_average A B)
  /\ seq_len (model_average A B) = seq_len A + seq_len B
  /\ sumZ (counts (model_average A B)) = sumZ (counts A) + sumZ (counts B).
Proof.
  intros HA HB HcA HcB Hfit.
  pose proof HA as (HlA & HFA & HsA). pose proof HB as (HlB & HFB & HsB).
  unfold covered in *. unfold in_size_t in HsA, HsB.
  pose proof (sumZ_nonneg _ HFA) as HnA. pose proof (sumZ_nonneg _ HFB) as HnB.
  assert (Hw : wf_model (model_average A B)).
  { split; [now apply model_average_length |]. split.
    - rewrite model_average_counts by assumption.
      apply Forall_map, Forall_forall. intros x _. apply size_t_wrap_range.
    - apply size_t_wrap_range. }
  assert (Hs : seq_len (model_average A B) = seq_len A + seq_len B).
  { cbn [model_average seq_len]. apply size_t_wrap_small.
    unfold in_size_t. lia. }
  assert (Hsum : sumZ (counts (model_average A B))
                 = sumZ (counts A) + sumZ (counts B)).
  { destruct (average_substitutions A B HA HB ltac:(lia)) as [Et _].
    rewrite <- Et. symmetry. rewrite model_total_sum by apply Hw.
    apply size_t_wrap_small. split; [apply sumZ_nonneg, Hw |].
    destruct (ten_cells _ HlA) as (a0&a1&a2&a3&a4&a5&a6&a7&a8&a9&EA).
    destruct (ten_cells _ HlB) as (b0&b1&b2&b3&b4&b5&b6&b7&b8&b9&EB).
    rewrite model_average_counts by assumption.
    rewrite EA, EB in *. unfold sumZ in *.
    cbn [combine map fst snd fold_right] in *.
    repeat (apply Forall_cons_iff in HFA; destruct HFA as [? HFA]).
    repeat (apply Forall_cons_iff in HFB; destruct HFB as [? HFB]).
    unfold in_size_t in *.
    rewrite !size_t_wrap_small by (unfold in_size_t; lia). lia. }
  split; [exact Hw |]. split; [rewrite Hs, Hsum; lia |].
  split; assumption.
Qed.

Lemma model_average_covered_witness :
  wf_model (model_average matrix_a matrix_b)
  /\ covered (model_average matrix_a matrix_b)
  /\ seq_len (model_average matrix_a matrix_b)
     = seq_len matrix_a + seq_len matrix_b
  /\ sumZ (counts (model_average matrix_a matrix_b))
     = sumZ (counts matrix_a) + sumZ (counts matrix_b).
Proof.
  apply (model_average_covered matrix_a matrix_b matrix_a_wf matrix_b_wf).
  - vm_compute. discriminate.
  - vm_compute. discriminate.
  - vm_compute. discriminate.
Defined.

(** The total of a bootstrapped matrix is the total of the original reduced
    modulo 2^32, whatever the valid random source; every drawn counter is an
    [unsigned int], and a matrix within its reference stays within it. *)
Theorem model_bootstrap_modulo (src : random_source) (RNG : gsl_rng src)
  (MM : model) :
  wf_model MM ->
  model_total (fst (model_bootstrap src RNG MM)) = uint_wrap (model_total MM)
  /\ Forall (fun c => 0 <= c <= UINT_MAX)
       (counts (fst (model_bootstrap src RNG MM)))
  /\ wf_model (fst (model_bootstrap src RNG MM))
  /\ (covered MM -> covered (fst (model_bootstrap src RNG MM))).
Proof.
  intros (Hlen & Hc & Hsl).
  destruct (model_bootstrap_spec src RNG MM Hlen) as (Hl & Hr & Hs & Hq).
  pose proof (uint_wrap_range (model_total MM)) as Hu. unfold UINT_MAX in Hu.
  split; [| split; [exact Hr |]; split].
  - rewrite model_total_sum, Hs by assumption.
    apply size_t_wrap_small. unfold in_size_t, SIZE_MAX. lia.
  - split; [exact Hl |]. split; [| now rewrite Hq].
    eapply Forall_impl; [| exact Hr]. unfold in_size_t, SIZE_MAX, UINT_MAX.
    intros a. cbv beta. lia.
  - unfold covered. intros Hcov. rewrite Hs, Hq.
    unfold in_size_t in Hsl.
    rewrite (model_total_exact MM) by (repeat split; assumption || lia).
    pose proof (sumZ_nonneg _ Hc) as Hnn.
    unfold uint_wrap. pose proof (Z.mod_le (sumZ (counts MM)) (2 ^ 32)). lia.
Qed.

Lemma model_bootstrap_modulo_witness :
  model_total (fst (model_bootstrap first_cell_source tt two_to_32))
  = uint_wrap (model_total two_to_32)
  /\ Forall (fun c => 0 <= c <= UINT_MAX)
       (counts (fst (model_bootstrap first_cell_source tt two_to_32)))
  /\ wf_model (fst (model_bootstrap first_cell_source tt two_to_32))
  /\ (covered two_to_32 ->
      covered (fst (model_bootstrap first_cell_source tt two_to_32))).
Proof.
  apply (model_bootstrap_modulo first_cell_source tt two_to_32).
  unfold wf_model, two_to_32, in_size_t, SIZE_MAX. cbn [counts seq_len].
  split; [reflexivity |]. split; [repeat constructor; lia | lia].
Defined.

(** ** The empty alignment *)

(** An alignment or an anchor of length 0 leaves the matrix as it is, on
    either path of [model_count_equal] and whatever the fragments hold. *)
Theorem empty_alignment_unchanged (MODEL : evo_model) (MM : model)
  (subject query : list char) :
  wf_model MM ->
  model_count MM subject query 0 = Some MM
  /\ model_count_equal MODEL MM subject 0 = Some MM.
Proof.
  intros (Hlen & Hc & _). destruct MM as [c l]. cbn [counts seq_len] in *.
  destruct (ten_cells _ Hlen) as (c0&c1&c2&c3&c4&c5&c6&c7&c8&c9&E). subst c.
  repeat (apply Forall_cons_iff in Hc; destruct Hc as [? Hc]).
  split.
  - unfold model_count. cbn [Z.to_nat count_loop counts seq_len].
    unfold empty_counts, MUTCOUNTS, add_at, get.
    cbn [repeat seq fold_left set nth].
    rewrite !Z.add_0_r, !size_t_wrap_small by assumption. reflexivity.
  - destruct MODEL; unfold model_count_equal;
      cbn [Z.to_nat count_equal_loop counts seq_len];
      unfold add_at, get, AtoA, CtoC, GtoG, TtoT;
      cbn [set nth]; change (0 / 4) with 0; change (Z.land 0 3) with 0;
      change (size_t_wrap (0 + 0)) with 0;
      rewrite !Z.add_0_r, !size_t_wrap_small by assumption; reflexivity.
Qed.

Lemma empty_alignment_unchanged_witness :
  model_count matrix_a (chars_of_string "ACGT") [] 0 = Some matrix_a
  /\ model_count_equal M_KIMURA matrix_a (chars_of_string "ACGT") 0
     = Some matrix_a.
Proof.
  exact (empty_alignment_unchanged M_KIMURA matrix_a (chars_of_string "ACGT")
           [] matrix_a_wf).
Defined.

(** ** The code of a character *)

(** [nucl2bit] reads bits 1 and 2 of a character and nothing else: the code
    lies in 0..3, and two characters get the same code exactly when they
    agree in these two bits. *)
Theorem nucl2bit_bits (c d : char) :
  0 <= nucl2bit c <= 3
  /\ (nucl2bit c = nucl2bit d <-> Z.land c 6 = Z.land d 6).
Proof.
  split; [destruct (nucl2bit_cases c) as [E|[E|[E|E]]]; rewrite E; lia |].
  unfold nucl2bit. rewrite (land_6_mod_8 c), (land_6_mod_8 d).
  destruct (mod_8_cases c) as [E|[E|[E|[E|[E|[E|[E|E]]]]]]];
    destruct (mod_8_cases d) as [F|[F|[F|[F|[F|[F|[F|F]]]]]]];
    rewrite E, F; vm_compute; split; intros H;
    try discriminate H; reflexivity.
Qed.

(** ** Sums of counters *)

(** [model_sum_types] adds the counters named before the first sentinel, in
    [size_t] arithmetic, and reads nothing behind it. *)
Theorem model_sum_types_sentinel (MM : model) (types rest : list nat)
  (total : Z) :
  Forall (fun i => i <> MUTCOUNTS) types ->
  model_sum_types MM (types ++ MUTCOUNTS :: rest) (size_t_wrap total)
  = size_t_wrap (total + sumZ (map (get (counts MM)) types)).
Proof.
  revert total. induction types as [| i types IH]; intros total H.
  - cbn. now rewrite Z.add_0_r.
  - inversion H as [| ? ? Hi Ht]; subst.
    cbn [app model_sum_types map].
    destruct (Nat.eqb_spec i MUTCOUNTS) as [E | _]; [contradiction |].
    rewrite size_t_wrap_add_l, IH by assumption.
    f_equal. change (sumZ (get (counts MM) i :: map (get (counts MM)) types))
      with (get (counts MM) i + sumZ (map (get (counts MM)) types)). lia.
Qed.

Lemma model_sum_types_sentinel_witness :
  model_sum_types matrix_a ([AtoG; CtoT] ++ MUTCOUNTS :: [AtoA; TtoT])
    (size_t_wrap 0)
  = size_t_wrap (0 + sumZ (map (get (counts matrix_a)) [AtoG; CtoT])).
Proof.
  apply (model_sum_types_sentinel matrix_a [AtoG; CtoT] [AtoA; TtoT] 0).
  repeat constructor; discriminate.
Defined.

(** ** The order of the distances *)



